(** * mycat: line transformation and multi-file streaming

    A shallow embedding of [src/mycat/mycat.cpp] and the properties of its
    line transformer and stream processor.

    Conventions of the embedding:
    - [std::string] is [string]; [std::vector<std::string>] is [list string];
    - [int] is [Z] together with the 32-bit two's complement wrap-around
      [wrap_int] applied where the program increments it;
    - [std::cout], [std::cerr] and [std::cin] are fields of a [World] that is
      passed through every function that touches them; the two reference
      parameters [line_number] and [last_was_blank] travel in [Counters];
    - the operating system is an oracle [fs] that answers, per file name,
      what [stat], [access], [ifstream::open] and reading return. *)

From Stdlib Require Import ZArith List String Ascii Bool Lia.
From Stdlib Require Import DecimalString DecimalZ.
Import ListNotations.

Local Open Scope list_scope.
Local Open Scope string_scope.
Local Open Scope Z_scope.

(** ** Characters and small string helpers *)

Definition TAB : ascii := "009"%char.
Definition LF : ascii := "010"%char.
Definition NUL : ascii := "000"%char.

(** The one-character string holding [c]. *)
Definition str (c : ascii) : string := String c EmptyString.

(** The string "\n". *)
Definition nl : string := str LF.

(** [std::string::empty]. *)
Definition empty (s : string) : bool :=
  match s with
  | EmptyString => true
  | String _ _ => false
  end.

(** [s[0]]; on the empty string C++ yields the terminating NUL. *)
Definition front (s : string) : ascii :=
  match s with
  | EmptyString => NUL
  | String c _ => c
  end.

(** The characters at indices [1 .. length-1]. *)
Definition from_index_1 (s : string) : string :=
  match s with
  | EmptyString => EmptyString
  | String _ r => r
  end.

(** ** The [int] counter *)

Definition INT_MAX : Z := 2147483647.
Definition INT_MIN : Z := -2147483648.

(** Two's complement reduction to 32 bits. *)
Definition wrap_int (z : Z) : Z := (z + 2 ^ 31) mod 2 ^ 32 - 2 ^ 31.

(** The value [line_number] holds after [line_number++].  At INT_MAX the
    increment is a signed overflow, which C++ leaves undefined; the model
    takes the two's complement result there, and the statements about the
    numbers written say in which range they hold. *)
Definition int_succ (n : Z) : Z := wrap_int (n + 1).

(** ** Formatted output of an [int] *)

(** [operator<<(int)] in the default locale: optional minus sign, then
    decimal digits without leading zeros. *)
Definition to_decimal (n : Z) : string := NilZero.string_of_int (Z.to_int n).

Fixpoint spaces (n : nat) : string :=
  match n with
  | O => EmptyString
  | S k => String " " (spaces k)
  end.

(** [std::setw(w) << std::right]: pad on the left with the fill character
    (a space) up to [w] characters; longer text is not truncated. *)
Definition setw_right (w : nat) (s : string) : string :=
  spaces (w - String.length s) ++ s.

(** What line 234 inserts into [std::cout] for the counter value [n]. *)
Definition number_prefix (n : Z) : string :=
  setw_right 6 (to_decimal n) ++ " ".

(** ** Options (lines 11-17) *)

Record Options : Type := mkOptions {
  number_lines : bool;
  number_non_blank : bool;
  show_ends : bool;
  show_tabs : bool;
  squeeze_blanks : bool
}.

(** The default member initialisers. *)
Definition default_options : Options := mkOptions false false false false false.

Definition set_number_lines (b : bool) (o : Options) : Options :=
  mkOptions b (number_non_blank o) (show_ends o) (show_tabs o) (squeeze_blanks o).
Definition set_number_non_blank (b : bool) (o : Options) : Options :=
  mkOptions (number_lines o) b (show_ends o) (show_tabs o) (squeeze_blanks o).
Definition set_show_ends (b : bool) (o : Options) : Options :=
  mkOptions (number_lines o) (number_non_blank o) b (show_tabs o) (squeeze_blanks o).
Definition set_show_tabs (b : bool) (o : Options) : Options :=
  mkOptions (number_lines o) (number_non_blank o) (show_ends o) b (squeeze_blanks o).
Definition set_squeeze_blanks (b : bool) (o : Options) : Options :=
  mkOptions (number_lines o) (number_non_blank o) (show_ends o) (show_tabs o) b.

(** ** The world the program runs in *)

(** An input stream as the read loop sees it: the lines successive
    [std::getline] calls deliver before the first failing call, and whether
    [badbit] is set once that call has failed. *)
Record Stream : Type := mkStream {
  pending : list string;
  bad : bool
}.

(** What the operating system answers for one path.  A [Some msg] is a
    failing call, [msg] being [strerror(errno)]. *)
Record FileInfo : Type := mkFileInfo {
  stat_error : option string;
  is_directory : bool;
  access_error : option string;
  open_error : option string;
  contents : Stream
}.

Record World : Type := mkWorld {
  fs : string -> FileInfo;
  cin : Stream;
  cout : string;
  cerr : string
}.

Definition write_cout (s : string) (w : World) : World :=
  mkWorld (fs w) (cin w) (cout w ++ s) (cerr w).

Definition write_cerr (s : string) (w : World) : World :=
  mkWorld (fs w) (cin w) (cout w) (cerr w ++ s).

(** [std::cin] after the read loop ran on it: nothing is left to deliver and
    the state bits stay as they are. *)
Definition drain_cin (w : World) : World :=
  mkWorld (fs w) (mkStream [] (bad (cin w))) (cout w) (cerr w).

(** The locals of [main] that [process_file] receives by reference. *)
Record Counters : Type := mkCounters {
  line_number : Z;
  last_was_blank : bool
}.

(** Lines 268-269. *)
Definition initial_counters : Counters := mkCounters 1 false.

(** ** print_usage (lines 30-41) *)

Definition print_usage (program_name : string) (w : World) : World :=
  write_cerr
    ("Usage: " ++ program_name ++ " [OPTION]... [FILE]..." ++ nl
     ++ "Concatenate FILE(S) to standard output. " ++ nl ++ nl
     ++ "Options:" ++ nl
     ++ "  -n      number all output lines" ++ nl
     ++ "  -b      number non-empty output lines" ++ nl
     ++ "  -E      display $ at the end of each line" ++ nl
     ++ "  -T      display TAB charactesr as ^I" ++ nl
     ++ "  -s      squeeze multiple blank lines" ++ nl
     ++ "  -h      display this help and exit" ++ nl
     ++ "With no FILE or when FILE is -, read standard input." ++ nl) w.

(** ** parse_arguments (lines 54-113) *)

(** The inner loop over [arg[1..]] (lines 75-100).  The boolean is [false]
    when the function returns [false] from inside the switch. *)
Fixpoint parse_flags (flags : string) (opts : Options) (w : World)
  : bool * Options * World :=
  match flags with
  | EmptyString => (true, opts, w)
  | String c rest =>
      if (c =? "n")%char then parse_flags rest (set_number_lines true opts) w
      else if (c =? "b")%char then parse_flags rest (set_number_non_blank true opts) w
      else if (c =? "E")%char then parse_flags rest (set_show_ends true opts) w
      else if (c =? "T")%char then parse_flags rest (set_show_tabs true opts) w
      else if (c =? "s")%char then parse_flags rest (set_squeeze_blanks true opts) w
      else if (c =? "h")%char then (false, opts, w)
      else
        (false, opts,
         write_cerr ("Try mycat -h for more information." ++ nl)
           (write_cerr ("mycat: invalid option -- '" ++ str c ++ "'" ++ nl) w))
  end.

(** The outer loop over [argv[1..argc-1]] (lines 57-105). *)
Fixpoint parse_loop (args : list string) (stop_parsing_flags : bool)
    (opts : Options) (files : list string) (w : World)
  : bool * Options * list string * World :=
  match args with
  | [] => (true, opts, files, w)
  | arg :: rest =>
      if (arg =? "--")%string then parse_loop rest true opts files w
      else if negb stop_parsing_flags && (front arg =? "-")%char
              && (1 <? String.length arg)%nat then
        if (arg =? "-")%string then parse_loop rest stop_parsing_flags opts (files ++ [arg])%list w
        else
          match parse_flags (from_index_1 arg) opts w with
          | (true, opts', w') => parse_loop rest stop_parsing_flags opts' files w'
          | (false, opts', w') => (false, opts', files, w')
          end
      else parse_loop rest stop_parsing_flags opts (files ++ [arg])%list w
  end.

(** Lines 107-110: -b overrides -n. *)
Definition override_number_lines (opts : Options) : Options :=
  if number_non_blank opts then set_number_lines false opts else opts.

Definition parse_arguments (argv : list string) (opts : Options)
    (files : list string) (w : World)
  : bool * Options * list string * World :=
  match parse_loop (tl argv) false opts files w with
  | (true, opts', files', w') => (true, override_number_lines opts', files', w')
  | (false, opts', files', w') => (false, opts', files', w')
  end.

(** ** check_file_access (lines 122-149) *)

Definition diagnostic (filename message : string) : string :=
  "mycat: " ++ filename ++ ": " ++ message ++ nl.

Definition check_file_access (filename : string) (w : World) : bool * World :=
  if (filename =? "-")%string then (true, w)
  else
    match stat_error (fs w filename) with
    | Some e => (false, write_cerr (diagnostic filename e) w)
    | None =>
        if is_directory (fs w filename)
        then (false, write_cerr (diagnostic filename "Is a directory") w)
        else
          match access_error (fs w filename) with
          | Some e => (false, write_cerr (diagnostic filename e) w)
          | None => (true, w)
          end
    end.

(** ** transform_line (lines 165-185) *)

(** The range-for of lines 170-176; [transformed_line] is the accumulator. *)
Fixpoint replace_tabs_loop (transformed_line : string) (rest : string) : string :=
  match rest with
  | EmptyString => transformed_line
  | String c rest' =>
      if (c =? TAB)%char
      then replace_tabs_loop (transformed_line ++ "^I") rest'
      else replace_tabs_loop (transformed_line ++ str c) rest'
  end.

Definition transform_line (line : string) (opts : Options) : string :=
  let result := line in
  let result :=
    if show_tabs opts then replace_tabs_loop EmptyString result else result in
  let result := if show_ends opts then result ++ "$" else result in
  result.

(** ** process_file (lines 206-250) *)

(** One iteration of the [while] loop (lines 223-239) on the line that
    [std::getline] delivered. *)
Definition process_line (opts : Options) (s : Counters * World) (line : string)
  : Counters * World :=
  let (c, w) := s in
  let is_blank := empty line in
  if squeeze_blanks opts && is_blank && last_was_blank c then (c, w)
  else
    let c := mkCounters (line_number c) is_blank in
    let (c, w) :=
      if number_lines opts || (number_non_blank opts && negb is_blank)
      then (mkCounters (int_succ (line_number c)) (last_was_blank c),
            write_cout (number_prefix (line_number c)) w)
      else (c, w) in
    let transformed_line := transform_line line opts in
    (c, write_cout (transformed_line ++ nl) w).

(** The [while] loop and the check that follows it (lines 221-249), run on
    the stream [input] that was bound at lines 210-219. *)
Definition read_loop (filename : string) (opts : Options) (input : Stream)
    (c : Counters) (w : World) : bool * Counters * World :=
  let (c, w) := fold_left (process_line opts) (pending input) (c, w) in
  if bad input
  then (false, c, write_cerr ("mycat: " ++ filename ++ ": Read error" ++ nl) w)
  else (true, c, w).

Definition process_file (filename : string) (opts : Options) (c : Counters)
    (w : World) : bool * Counters * World :=
  if (filename =? "-")%string then
    read_loop filename opts (cin w) c (drain_cin w)
  else
    match open_error (fs w filename) with
    | Some e => (false, c, write_cerr (diagnostic filename e) w)
    | None => read_loop filename opts (contents (fs w filename)) c w
    end.

(** ** main (lines 252-286) *)

(** The body of the range-for of lines 272-283; [had_errors] is the first
    component of the loop state. *)
Definition process_source (opts : Options) (s : bool * Counters * World)
    (filename : string) : bool * Counters * World :=
  let '(had_errors, c, w) := s in
  let (accessible, w) :=
    if negb (filename =? "-")%string then check_file_access filename w
    else (true, w) in
  if negb accessible then (true, c, w)
  else
    let '(ok, c, w) := process_file filename opts c w in
    if negb ok then (true, c, w) else (had_errors, c, w).

Definition process_files (opts : Options) (files : list string)
    (s : bool * Counters * World) : bool * Counters * World :=
  fold_left (process_source opts) files s.

Definition main (argv : list string) (w : World) : Z * World :=
  let '(parsed, opts, files, w) := parse_arguments argv default_options [] w in
  if negb parsed then (1, print_usage (hd EmptyString argv) w)
  else
    let files := match files with [] => ["-"] | _ => files end in
    let '(had_errors, _, w) :=
      process_files opts files (false, initial_counters, w) in
    (if had_errors then 1 else 0, w).

(** ** Vocabulary of the statements

    The definitions below are not part of the program; they name what the
    properties talk about. *)

(** The display form of a line's tabs, following the specification's words:
    every horizontal tab becomes the two characters [^I], every other
    character stays, in order. *)
Fixpoint visible_tabs (line : string) : string :=
  match line with
  | EmptyString => EmptyString
  | String c rest =>
      (if (c =? TAB)%char then "^I" else str c) ++ visible_tabs rest
  end.

(** Number of horizontal tabs in a line. *)
Fixpoint count_tabs (line : string) : nat :=
  match line with
  | EmptyString => O
  | String c rest => ((if (c =? TAB)%char then 1 else 0) + count_tabs rest)%nat
  end.

(** Whether the character [a] occurs in [s]. *)
Fixpoint occurs (a : ascii) (s : string) : bool :=
  match s with
  | EmptyString => false
  | String c rest => (c =? a)%char || occurs a rest
  end.

(** Projections of the loop state of [main]. *)
Definition had_errors_of (s : bool * Counters * World) : bool := fst (fst s).
Definition counters_of (s : bool * Counters * World) : Counters := snd (fst s).
Definition world_of (s : bool * Counters * World) : World := snd s.

(** What an observer of standard output and of the two counters sees. *)
Definition same_output (s1 s2 : Counters * World) : Prop :=
  fst s1 = fst s2 /\ cout (snd s1) = cout (snd s2).

(** The outcome of [check_file_access] on a path other than "-". *)
Definition passes_access_check (i : FileInfo) : bool :=
  match stat_error i with
  | Some _ => false
  | None =>
      negb (is_directory i)
      && match access_error i with Some _ => false | None => true end
  end.

Definition opens (i : FileInfo) : bool :=
  match open_error i with Some _ => false | None => true end.

(** The lines one source delivers to the read loop when it is visited with
    standard input in state [input]. *)
Definition source_lines (fsys : string -> FileInfo) (input : Stream)
    (filename : string) : list string :=
  if (filename =? "-")%string then pending input
  else if passes_access_check (fsys filename) && opens (fsys filename)
       then pending (contents (fsys filename))
       else [].

(** Standard input after a source has been visited. *)
Definition input_after (input : Stream) (filename : string) : Stream :=
  if (filename =? "-")%string then mkStream [] (bad input) else input.

(** All lines the run reads, in the order it reads them. *)
Fixpoint lines_read (fsys : string -> FileInfo) (input : Stream)
    (files : list string) : list string :=
  match files with
  | [] => []
  | f :: rest =>
      (source_lines fsys input f
         ++ lines_read fsys (input_after input f) rest)%list
  end.

(** A source fails: access check, open or read error. *)
Definition source_fails (fsys : string -> FileInfo) (input : Stream)
    (filename : string) : bool :=
  if (filename =? "-")%string then bad input
  else negb (passes_access_check (fsys filename))
       || negb (opens (fsys filename))
       || bad (contents (fsys filename)).

(** The lines of a sequence that the squeeze test of line 226 lets through,
    [last_blank] being the flag before the first of them. *)
Fixpoint emitted_lines (opts : Options) (last_blank : bool)
    (lines : list string) : list string :=
  match lines with
  | [] => []
  | l :: rest =>
      if squeeze_blanks opts && empty l && last_blank
      then emitted_lines opts last_blank rest
      else l :: emitted_lines opts (empty l) rest
  end.

(** No two neighbours of the list are both blank. *)
Fixpoint no_adjacent_blanks (lines : list string) : Prop :=
  match lines with
  | l1 :: (l2 :: _) as rest =>
      ~ (empty l1 = true /\ empty l2 = true) /\ no_adjacent_blanks rest
  | _ => True
  end.




(** Two option sets that differ at most in [number_lines]. *)
Definition agree_except_number_lines (o1 o2 : Options) : Prop :=
  number_non_blank o1 = number_non_blank o2
  /\ show_ends o1 = show_ends o2
  /\ show_tabs o1 = show_tabs o2
  /\ squeeze_blanks o1 = squeeze_blanks o2.


(** ** Worlds used in the examples *)

Definition no_such_file : FileInfo :=
  mkFileInfo (Some "No such file or directory") false
    (Some "No such file or directory") (Some "No such file or directory")
    (mkStream [] false).

Definition regular_file (lines : list string) : FileInfo :=
  mkFileInfo None false None None (mkStream lines false).

(** Two readable files, [ab] holding the lines a, b and [c] the line c, and
    [gaps] with runs of blank lines; every other path is missing. *)
Definition example_fs (name : string) : FileInfo :=
  if (name =? "ab")%string then regular_file ["a"; "b"]
  else if (name =? "c")%string then regular_file ["c"]
  else if (name =? "gaps")%string
       then regular_file ["a"; EmptyString; EmptyString; "b"; EmptyString]
  else if (name =? "blank")%string then regular_file [EmptyString; "z"]
  else if (name =? "broken")%string
       then mkFileInfo None false None None (mkStream ["x"] true)
  else no_such_file.

Definition example_world : World :=
  mkWorld example_fs (mkStream ["in"] false) EmptyString EmptyString.

(** ** Vocabulary for the command line and the listings *)

(** The option letters the switch of lines 76-99 accepts without
    returning. *)
Definition valid_flag (c : ascii) : bool :=
  (c =? "n")%char || (c =? "b")%char || (c =? "E")%char
  || (c =? "T")%char || (c =? "s")%char.

Fixpoint all_valid_flags (flags : string) : bool :=
  match flags with
  | EmptyString => true
  | String c rest => valid_flag c && all_valid_flags rest
  end.

(** The first character of [flags] that is not an accepted option letter. *)
Fixpoint first_invalid_flag (flags : string) : option ascii :=
  match flags with
  | EmptyString => None
  | String c rest => if valid_flag c then first_invalid_flag rest else Some c
  end.

(** An argument that begins with a dash and has more than one character. *)
Definition flag_shaped (arg : string) : bool :=
  (front arg =? "-")%char && (1 <? String.length arg)%nat.

(** A flag-shaped argument holding a character that is no option letter. *)
Definition rejected_argument (arg : string) : bool :=
  flag_shaped arg && negb (all_valid_flags (from_index_1 arg)).

Definition is_double_dash (arg : string) : bool := (arg =? "--")%string.

(** The arguments in front of the first "--". *)
Fixpoint before_double_dash (args : list string) : list string :=
  match args with
  | [] => []
  | arg :: rest =>
      if is_double_dash arg then [] else arg :: before_double_dash rest
  end.

Definition non_blank (line : string) : bool := negb (empty line).

(** The text of a listing without numbers. *)
Fixpoint plain_listing (opts : Options) (lines : list string) : string :=
  match lines with
  | [] => EmptyString
  | l :: rest => transform_line l opts ++ nl ++ plain_listing opts rest
  end.

(** The lines, each followed by a newline. *)
Fixpoint verbatim (lines : list string) : string :=
  match lines with
  | [] => EmptyString
  | l :: rest => l ++ nl ++ verbatim rest
  end.

(** The world [w] with another file system. *)
Definition with_fs (fsys : string -> FileInfo) (w : World) : World :=
  mkWorld fsys (cin w) (cout w) (cerr w).

(** ** Failing reads and the stream state

    [process_file] asks the stream, not the descriptor, whether reading
    failed (line 244).  The two kinds of stream it reads answer
    differently. *)

(** What the descriptor behind a stream does: the lines it yields before
    its end, and whether that end is a failed [read] rather than end of
    file. *)
Record Descriptor : Type := mkDescriptor {
  delivered : list string;
  read_fails : bool
}.

(** [std::cin] as [main] finds it, synchronised with stdio: its buffer
    reports a failed read as end of input, so [std::getline] sets
    [eofbit] and [failbit] and [badbit] stays clear. *)
Definition cin_over (d : Descriptor) : Stream := mkStream (delivered d) false.

(** A [std::ifstream]: its buffer throws on a failed read and
    [std::getline] turns that into [badbit]. *)
Definition ifstream_over (d : Descriptor) : Stream :=
  mkStream (delivered d) (read_fails d).

(** Standard input bound to a descriptor whose first [read] fails, as when
    it is redirected from a directory; the files are those of
    [example_fs]. *)
Definition unreadable_stdin_world : World :=
  mkWorld example_fs (cin_over (mkDescriptor [] true)) EmptyString EmptyString.

(** The same descriptor opened by name. *)
Definition unreadable_file_world : World :=
  mkWorld
    (fun name =>
       if (name =? "dev")%string
       then mkFileInfo None false None None
              (ifstream_over (mkDescriptor [] true))
       else example_fs name)
    (mkStream [] false) EmptyString EmptyString.


(** * Properties *)

(** ** Strings *)

Lemma append_nil_r (s : string) : s ++ EmptyString = s.
Proof. induction s as [|a s IH]; simpl; now rewrite ?IH. Qed.

Lemma append_assoc (s t u : string) : (s ++ t) ++ u = s ++ (t ++ u).
Proof. induction s as [|a s IH]; simpl; now rewrite ?IH. Qed.

Lemma length_append (s t : string) :
  String.length (s ++ t) = (String.length s + String.length t)%nat.
Proof. induction s as [|a s IH]; simpl; now rewrite ?IH. Qed.

Lemma append_inv_head (s t u : string) : s ++ t = s ++ u -> t = u.
Proof.
  induction s as [|a s IH]; simpl; intros H; [exact H|].
  injection H as H. now apply IH.
Qed.

Lemma occurs_append (a : ascii) (s t : string) :
  occurs a (s ++ t) = occurs a s || occurs a t.
Proof.
  induction s as [|c s IH]; simpl; [reflexivity|].
  now rewrite IH, orb_assoc.
Qed.

Lemma length_spaces (n : nat) : String.length (spaces n) = n.
Proof. induction n as [|n IH]; simpl; now rewrite ?IH. Qed.

(** ** The line transformer *)

Lemma replace_tabs_loop_acc (line acc : string) :
  replace_tabs_loop acc line = acc ++ visible_tabs line.
Proof.
  revert acc. induction line as [|c rest IH]; intros acc; simpl.
  - now rewrite append_nil_r.
  - destruct (c =? TAB)%char; rewrite IH, append_assoc; reflexivity.
Qed.

Lemma replace_tabs_loop_spec (line : string) :
  replace_tabs_loop EmptyString line = visible_tabs line.
Proof. now rewrite replace_tabs_loop_acc. Qed.

Lemma visible_tabs_append (s t : string) :
  visible_tabs (s ++ t) = visible_tabs s ++ visible_tabs t.
Proof.
  induction s as [|c s IH]; simpl; [reflexivity|].
  now rewrite IH, append_assoc.
Qed.

Lemma visible_tabs_length (line : string) :
  String.length (visible_tabs line)
  = (String.length line + count_tabs line)%nat.
Proof.
  induction line as [|c rest IH]; simpl; [reflexivity|].
  rewrite length_append, IH. destruct (c =? TAB)%char; simpl; lia.
Qed.

Lemma visible_tabs_no_tab (line : string) :
  occurs TAB (visible_tabs line) = false.
Proof.
  induction line as [|c rest IH]; simpl; [reflexivity|].
  rewrite occurs_append, IH, orb_false_r.
  destruct (c =? TAB)%char eqn:E; simpl; [reflexivity|].
  now rewrite E.
Qed.

Lemma visible_tabs_id (line : string) :
  occurs TAB line = false -> visible_tabs line = line.
Proof.
  induction line as [|c rest IH]; simpl; [reflexivity|].
  intros H. apply orb_false_iff in H as [Hc Hr].
  rewrite Hc, (IH Hr). reflexivity.
Qed.

Lemma transform_line_eq (line : string) (opts : Options) :
  transform_line line opts
  = (if show_tabs opts then visible_tabs line else line)
      ++ (if show_ends opts then "$" else EmptyString).
Proof.
  unfold transform_line.
  destruct (show_tabs opts), (show_ends opts);
    rewrite ?replace_tabs_loop_spec, ?append_nil_r; reflexivity.
Qed.

Example transform_tab_and_end :
  transform_line ("x" ++ str TAB ++ "y") (mkOptions false false true true false)
  = "x^Iy$".
Proof. reflexivity. Qed.

(** C3. For every line and configuration, [transform_line] returns the line
    with each horizontal tab replaced by [^I] when [show_tabs] is set (one
    replacement per tab, left to right, every other character kept in
    place), followed by one [$] when [show_ends] is set.  The replacement
    distributes over concatenation, maps a single tab to [^I] and any other
    single character to itself, lengthens the line by exactly one character
    per tab and leaves no tab behind.  Being a total function, the transformer
    has a result for every input. *)
Theorem transform_line_correct :
  forall (line : string) (opts : Options),
    transform_line line opts
    = (if show_tabs opts then visible_tabs line else line)
        ++ (if show_ends opts then "$" else EmptyString)
    /\ (forall s t, visible_tabs (s ++ t) = visible_tabs s ++ visible_tabs t)
    /\ (forall c : ascii,
          visible_tabs (str c) = if (c =? TAB)%char then "^I" else str c)
    /\ String.length (visible_tabs line)
       = (String.length line + count_tabs line)%nat
    /\ occurs TAB (visible_tabs line) = false.
Proof.
  intros line opts.
  split; [apply transform_line_eq|].
  split; [apply visible_tabs_append|].
  split.
  - intros c. simpl. now destruct (c =? TAB)%char.
  - split; [apply visible_tabs_length | apply visible_tabs_no_tab].
Qed.

(** C8. With [show_tabs] and [show_ends] both off the transformer returns
    its argument, so transforming with such a configuration first does not
    change what any configuration then produces. *)
Theorem transform_line_plain_identity :
  forall (line : string) (plain cfg : Options),
    show_tabs plain = false ->
    show_ends plain = false ->
    transform_line line plain = line
    /\ transform_line (transform_line line plain) cfg = transform_line line cfg.
Proof.
  intros line plain cfg Ht He.
  assert (Hid : transform_line line plain = line).
  { unfold transform_line. now rewrite Ht, He. }
  split; [exact Hid | now rewrite Hid].
Qed.

Lemma transform_line_plain_identity_witness :
  transform_line ("x" ++ str TAB ++ "y") default_options = "x" ++ str TAB ++ "y"
  /\ transform_line
       (transform_line ("x" ++ str TAB ++ "y") default_options)
       (mkOptions false false true true false)
     = transform_line ("x" ++ str TAB ++ "y")
         (mkOptions false false true true false).
Proof.
  apply (transform_line_plain_identity ("x" ++ str TAB ++ "y")
           default_options (mkOptions false false true true false));
    reflexivity.
Defined.

(** ** The counter and its printed form *)

Lemma int_succ_in_range (n : Z) :
  INT_MIN <= n < INT_MAX -> int_succ n = n + 1.
Proof.
  unfold int_succ, wrap_int, INT_MIN, INT_MAX. intros H.
  assert (E31 : 2 ^ 31 = 2147483648) by reflexivity.
  assert (E32 : 2 ^ 32 = 4294967296) by reflexivity.
  rewrite E31, E32, Z.mod_small; lia.
Qed.



Lemma number_prefix_length (n : Z) :
  String.length (number_prefix n)
  = (Nat.max 6 (String.length (to_decimal n)) + 1)%nat.
Proof.
  unfold number_prefix, setw_right.
  rewrite !length_append, length_spaces.
  change (String.length " ") with 1%nat. lia.
Qed.

Example number_prefix_1 : number_prefix 1 = "     1 ".
Proof. reflexivity. Qed.

Example number_prefix_wide : number_prefix 1234567 = "1234567 ".
Proof. reflexivity. Qed.

(** ** One iteration of the read loop *)

Lemma write_cout_twice (a b : string) (w : World) :
  write_cout b (write_cout a w) = write_cout (a ++ b) w.
Proof. unfold write_cout; simpl. now rewrite append_assoc. Qed.

Lemma process_line_eq (opts : Options) (c : Counters) (w : World)
    (line : string) :
  process_line opts (c, w) line
  = if squeeze_blanks opts && empty line && last_was_blank c then (c, w)
    else
      if number_lines opts || (number_non_blank opts && negb (empty line))
      then (mkCounters (int_succ (line_number c)) (empty line),
            write_cout
              (number_prefix (line_number c) ++ transform_line line opts ++ nl) w)
      else (mkCounters (line_number c) (empty line),
            write_cout (transform_line line opts ++ nl) w).
Proof.
  unfold process_line.
  destruct (squeeze_blanks opts && empty line && last_was_blank c);
    [reflexivity|].
  destruct (number_lines opts || (number_non_blank opts && negb (empty line)));
    simpl; [|reflexivity].
  now rewrite write_cout_twice.
Qed.

Lemma process_line_same_output (opts : Options) (s1 s2 : Counters * World)
    (line : string) :
  same_output s1 s2 ->
  same_output (process_line opts s1 line) (process_line opts s2 line).
Proof.
  destruct s1 as [c1 w1], s2 as [c2 w2]. intros [Hc Hw]; simpl in Hc, Hw.
  subst c2. rewrite !process_line_eq.
  destruct (squeeze_blanks opts && empty line && last_was_blank c1).
  - split; simpl; [reflexivity | exact Hw].
  - destruct (number_lines opts || (number_non_blank opts && negb (empty line)));
      split; simpl; try reflexivity; now rewrite Hw.
Qed.

Lemma process_line_frame (opts : Options) (s : Counters * World)
    (line : string) :
  fs (snd (process_line opts s line)) = fs (snd s)
  /\ cin (snd (process_line opts s line)) = cin (snd s)
  /\ cerr (snd (process_line opts s line)) = cerr (snd s).
Proof.
  destruct s as [c w]. rewrite process_line_eq.
  destruct (squeeze_blanks opts && empty line && last_was_blank c);
    [now simpl|].
  destruct (number_lines opts || (number_non_blank opts && negb (empty line)));
    now simpl.
Qed.

Lemma lines_same_output (opts : Options) (lines : list string) :
  forall s1 s2 : Counters * World,
    same_output s1 s2 ->
    same_output (fold_left (process_line opts) lines s1)
                (fold_left (process_line opts) lines s2).
Proof.
  induction lines as [|l rest IH]; intros s1 s2 H; simpl; [exact H|].
  apply IH. now apply process_line_same_output.
Qed.

Lemma lines_frame (opts : Options) (lines : list string) :
  forall s : Counters * World,
    fs (snd (fold_left (process_line opts) lines s)) = fs (snd s)
    /\ cin (snd (fold_left (process_line opts) lines s)) = cin (snd s)
    /\ cerr (snd (fold_left (process_line opts) lines s)) = cerr (snd s).
Proof.
  induction lines as [|l rest IH]; intros s; simpl; [now auto|].
  destruct (IH (process_line opts s l)) as (H1 & H2 & H3).
  destruct (process_line_frame opts s l) as (F1 & F2 & F3).
  rewrite H1, H2, H3. now auto.
Qed.

Lemma same_output_refl (s : Counters * World) : same_output s s.
Proof. now split. Qed.

Lemma same_output_trans (s1 s2 s3 : Counters * World) :
  same_output s1 s2 -> same_output s2 s3 -> same_output s1 s3.
Proof. intros [A B] [C D]. split; congruence. Qed.

(** ** One source *)

Lemma read_loop_spec (filename : string) (opts : Options) (input : Stream)
    (c : Counters) (w : World) :
  let r := read_loop filename opts input c w in
  let s := fold_left (process_line opts) (pending input) (c, w) in
  fst (fst r) = negb (bad input)
  /\ counters_of r = fst s
  /\ cout (world_of r) = cout (snd s)
  /\ fs (world_of r) = fs w
  /\ cin (world_of r) = cin w
  /\ cerr (world_of r)
     = cerr w ++ (if bad input
                  then "mycat: " ++ filename ++ ": Read error" ++ nl
                  else EmptyString).
Proof.
  unfold read_loop.
  destruct (lines_frame opts (pending input) (c, w)) as (F1 & F2 & F3).
  destruct (fold_left (process_line opts) (pending input) (c, w)) as [c1 w1].
  simpl in *.
  destruct (bad input); unfold counters_of, world_of; simpl;
    rewrite ?append_nil_r; rewrite ?F3; auto 10.
Qed.

Lemma check_file_access_spec (filename : string) (w : World) :
  (filename =? "-")%string = false ->
  fst (check_file_access filename w) = passes_access_check (fs w filename)
  /\ fs (snd (check_file_access filename w)) = fs w
  /\ cin (snd (check_file_access filename w)) = cin w
  /\ cout (snd (check_file_access filename w)) = cout w
  /\ (passes_access_check (fs w filename) = true ->
      snd (check_file_access filename w) = w).
Proof.
  intros E. unfold check_file_access, passes_access_check. rewrite E.
  destruct (stat_error (fs w filename)); simpl; [now auto 10|].
  destruct (is_directory (fs w filename)); simpl; [now auto 10|].
  destruct (access_error (fs w filename)); simpl; now auto 10.
Qed.

Lemma process_file_spec (filename : string) (opts : Options) (c : Counters)
    (w : World) :
  let r := process_file filename opts c w in
  let lines :=
    if (filename =? "-")%string then pending (cin w)
    else if opens (fs w filename) then pending (contents (fs w filename))
         else [] in
  let failed :=
    if (filename =? "-")%string then bad (cin w)
    else negb (opens (fs w filename)) || bad (contents (fs w filename)) in
  fst (fst r) = negb failed
  /\ same_output (counters_of r, world_of r)
       (fold_left (process_line opts) lines (c, w))
  /\ fs (world_of r) = fs w
  /\ cin (world_of r) = input_after (cin w) filename.
Proof.
  unfold process_file, input_after, opens.
  destruct (filename =? "-")%string eqn:E.
  - pose proof (read_loop_spec filename opts (cin w) c (drain_cin w)) as H.
    cbv zeta in H. destruct H as (H1 & H2 & H3 & H4 & H5 & _).
    cbv zeta. split; [exact H1|]. split; [|split; assumption].
    apply same_output_trans
      with (fold_left (process_line opts) (pending (cin w)) (c, drain_cin w)).
    + split; simpl; assumption.
    + apply lines_same_output. now split.
  - destruct (open_error (fs w filename)) as [e|] eqn:O; cbv zeta.
    + unfold counters_of, world_of. simpl. repeat split; reflexivity.
    + pose proof (read_loop_spec filename opts (contents (fs w filename)) c w)
        as H.
      cbv zeta in H. destruct H as (H1 & H2 & H3 & H4 & H5 & _).
      simpl. split; [exact H1|]. split; [|split; assumption].
      split; simpl; assumption.
Qed.

Lemma process_source_spec (opts : Options) (h : bool) (c : Counters)
    (w : World) (filename : string) :
  let r := process_source opts (h, c, w) filename in
  had_errors_of r = h || source_fails (fs w) (cin w) filename
  /\ same_output (counters_of r, world_of r)
       (fold_left (process_line opts)
          (source_lines (fs w) (cin w) filename) (c, w))
  /\ fs (world_of r) = fs w
  /\ cin (world_of r) = input_after (cin w) filename.
Proof.
  cbv zeta. unfold process_source, source_fails, source_lines.
  destruct (filename =? "-")%string eqn:E; simpl negb; cbv iota.
  - pose proof (process_file_spec filename opts c w) as H.
    cbv zeta in H. rewrite E in H. destruct H as (H1 & H2 & H3 & H4).
    destruct (process_file filename opts c w) as [[ok c1] w1].
    unfold had_errors_of, counters_of, world_of in *. simpl in *. subst ok.
    destruct (bad (cin w)); simpl; rewrite ?orb_true_r, ?orb_false_r; auto.
  - destruct (check_file_access_spec filename w E) as (A1 & A2 & A3 & A4 & A5).
    destruct (check_file_access filename w) as [accessible w0].
    simpl in A1, A2, A3, A4, A5. subst accessible.
    destruct (passes_access_check (fs w filename)); simpl.
    + rewrite (A5 eq_refl).
      pose proof (process_file_spec filename opts c w) as H.
      cbv zeta in H. rewrite E in H. destruct H as (H1 & H2 & H3 & H4).
      destruct (process_file filename opts c w) as [[ok c1] w1].
      unfold had_errors_of, counters_of, world_of in *. simpl in *. subst ok.
      destruct (opens (fs w filename)); simpl in *;
        [destruct (bad (contents (fs w filename)))|]; simpl;
        rewrite ?orb_true_r, ?orb_false_r; auto.
    + unfold had_errors_of, counters_of, world_of, input_after. simpl.
      rewrite E, orb_true_r. repeat split; assumption.
Qed.

(** ** The whole list of sources *)

Lemma source_fails_input_after (fsys : string -> FileInfo) (input : Stream)
    (f g : string) :
  source_fails fsys (input_after input f) g = source_fails fsys input g.
Proof.
  unfold source_fails, input_after.
  destruct (g =? "-")%string; [|reflexivity].
  now destruct (f =? "-")%string.
Qed.

Lemma existsb_source_fails_input_after (fsys : string -> FileInfo)
    (input : Stream) (f : string) (files : list string) :
  existsb (source_fails fsys (input_after input f)) files
  = existsb (source_fails fsys input) files.
Proof.
  induction files as [|g rest IH]; simpl; [reflexivity|].
  now rewrite IH, source_fails_input_after.
Qed.

Lemma process_files_spec (opts : Options) (files : list string) :
  forall (h : bool) (c : Counters) (w : World),
    let r := process_files opts files (h, c, w) in
    had_errors_of r = h || existsb (source_fails (fs w) (cin w)) files
    /\ same_output (counters_of r, world_of r)
         (fold_left (process_line opts) (lines_read (fs w) (cin w) files)
            (c, w))
    /\ fs (world_of r) = fs w.
Proof.
  induction files as [|f rest IH]; intros h c w; cbv zeta.
  - unfold had_errors_of, counters_of, world_of. simpl.
    rewrite orb_false_r. repeat split; reflexivity.
  - unfold process_files. cbn [fold_left].
    destruct (process_source_spec opts h c w f) as (S1 & S2 & S3 & S4).
    destruct (process_source opts (h, c, w) f) as [[h1 c1] w1].
    unfold had_errors_of, counters_of, world_of in S1, S2, S3, S4.
    simpl in S1, S2, S3, S4.
    destruct (IH h1 c1 w1) as (I1 & I2 & I3). unfold process_files in I1, I2, I3.
    rewrite S3, S4 in I1, I2. split; [|split].
    + rewrite I1, S1, existsb_source_fails_input_after. simpl.
      now rewrite orb_assoc.
    + simpl lines_read. rewrite fold_left_app.
      eapply same_output_trans; [exact I2|].
      now apply lines_same_output.
    + now rewrite I3.
Qed.

(** ** Numbering *)






Lemma unnumbered_line_keeps_counter (opts : Options) (s : Counters * World)
    (line : string) :
  number_lines opts = false ->
  number_non_blank opts = false ->
  line_number (fst (process_line opts s line)) = line_number (fst s).
Proof.
  intros Hn Hb. destruct s as [c w]. rewrite process_line_eq, Hn, Hb.
  simpl. now destruct (squeeze_blanks opts && empty line && last_was_blank c).
Qed.

Lemma unnumbered_lines_keep_counter (opts : Options) (lines : list string) :
  number_lines opts = false ->
  number_non_blank opts = false ->
  forall s : Counters * World,
    line_number (fst (fold_left (process_line opts) lines s))
    = line_number (fst s).
Proof.
  intros Hn Hb. induction lines as [|l rest IH]; intros s; simpl;
    [reflexivity|].
  rewrite IH. now apply unnumbered_line_keeps_counter.
Qed.

Example numbering_across_two_sources :
  main ["mycat"; "-n"; "ab"; "c"] example_world
  = (0, mkWorld example_fs (mkStream ["in"] false)
          ("     1 a" ++ nl ++ "     2 b" ++ nl ++ "     3 c" ++ nl)
          EmptyString).
Proof. reflexivity. Qed.



(** C10. With neither [number_lines] nor [number_non_blank] set,
    [line_number] has after the run the value it had before it, whatever
    the sources deliver and whatever the other options are; started at 1 as
    in [main] it is still 1, also after every prefix of the sources. *)
Theorem counter_untouched_without_numbering :
  forall (opts : Options) (files : list string) (h : bool) (c : Counters)
         (w : World),
    number_lines opts = false ->
    number_non_blank opts = false ->
    line_number (counters_of (process_files opts files (h, c, w)))
    = line_number c
    /\ (forall (line : string) (w' : World),
          line_number (fst (process_line opts (c, w') line)) = line_number c)
    /\ line_number
         (counters_of (process_files opts files (false, initial_counters, w)))
       = 1.
Proof.
  intros opts files h c w Hn Hb.
  assert (G : forall h0 c0,
             line_number (counters_of (process_files opts files (h0, c0, w)))
             = line_number c0).
  { intros h0 c0.
    destruct (process_files_spec opts files h0 c0 w) as (_ & [Hc _] & _).
    simpl in Hc. rewrite Hc.
    now rewrite unnumbered_lines_keep_counter. }
  split; [apply G|]. split; [|apply G].
  intros line w'. now rewrite unnumbered_line_keeps_counter.
Qed.

Lemma counter_untouched_without_numbering_witness :
  line_number
    (counters_of
       (process_files (mkOptions false false true true true)
          ["gaps"; "nope"; "-"; "broken"]
          (false, initial_counters, example_world)))
  = 1.
Proof.
  apply (counter_untouched_without_numbering
           (mkOptions false false true true true)
           ["gaps"; "nope"; "-"; "broken"] false initial_counters
           example_world); reflexivity.
Defined.

(** ** Squeezing *)

Lemma transform_line_squeeze_irrelevant (line : string) (b : bool)
    (opts : Options) :
  transform_line line (set_squeeze_blanks b opts) = transform_line line opts.
Proof. reflexivity. Qed.

Lemma squeezed_lines_as_unsqueezed (opts : Options) (lines : list string) :
  forall (c : Counters) (w : World),
    fold_left (process_line opts) lines (c, w)
    = fold_left (process_line (set_squeeze_blanks false opts))
        (emitted_lines opts (last_was_blank c) lines) (c, w).
Proof.
  induction lines as [|l rest IH]; intros c w; [reflexivity|].
  cbn [fold_left emitted_lines]. rewrite process_line_eq.
  destruct (squeeze_blanks opts && empty l && last_was_blank c) eqn:D.
  - apply IH.
  - cbn [fold_left]. rewrite process_line_eq. simpl squeeze_blanks.
    simpl andb. cbv iota.
    rewrite transform_line_squeeze_irrelevant.
    simpl number_lines. simpl number_non_blank.
    destruct (number_lines opts || (number_non_blank opts && negb (empty l)));
      rewrite IH; reflexivity.
Qed.

Lemma emitted_lines_head (opts : Options) (lines : list string) :
  squeeze_blanks opts = true ->
  forall last_blank : bool,
    match emitted_lines opts last_blank lines with
    | [] => True
    | l :: _ => last_blank = true -> empty l = false
    end.
Proof.
  intros Hs. induction lines as [|l rest IH]; intros last_blank; simpl;
    [exact I|].
  rewrite Hs. simpl.
  destruct (empty l) eqn:El, last_blank; simpl; try congruence.
  apply IH.
Qed.

Lemma emitted_lines_no_adjacent_blanks (opts : Options) (lines : list string) :
  squeeze_blanks opts = true ->
  forall last_blank : bool,
    no_adjacent_blanks (emitted_lines opts last_blank lines).
Proof.
  intros Hs. induction lines as [|l rest IH]; intros last_blank; simpl;
    [exact I|].
  destruct (squeeze_blanks opts && empty l && last_blank); [apply IH|].
  pose proof (emitted_lines_head opts rest Hs (empty l)) as Hhead.
  pose proof (IH (empty l)) as Htail.
  destruct (emitted_lines opts (empty l) rest) as [|l2 rest2]; [exact I|].
  split; [|exact Htail].
  intros [E1 E2]. specialize (Hhead E1). congruence.
Qed.

Example squeeze_scenario :
  emitted_lines (mkOptions false false false false true) false
    ["a"; EmptyString; EmptyString; "b"]
  = ["a"; EmptyString; "b"]
  /\ cout (snd (fold_left
                  (process_line (mkOptions false false false false true))
                  ["a"; EmptyString; EmptyString; "b"]
                  (initial_counters, example_world)))
     = "a" ++ nl ++ nl ++ "b" ++ nl.
Proof. split; reflexivity. Qed.

(** C2. With [squeeze_blanks] set, an empty line met while
    [last_was_blank] holds leaves the counters and the world exactly as
    they were: nothing is written, [line_number] and [last_was_blank] keep
    their values.  The read loop therefore does on any sequence of lines
    what the loop without squeezing does on the lines that pass the test,
    and among those no two neighbours are both empty; this holds for the
    lines of the whole run, read across all sources.  While
    [last_was_blank] is false, as it is at the start of the run, the next
    line is written even if it is empty. *)
Theorem squeeze_correct :
  forall (opts : Options) (c : Counters) (w : World) (line : string)
         (lines files : list string),
    squeeze_blanks opts = true ->
    (empty line = true -> last_was_blank c = true ->
     process_line opts (c, w) line = (c, w))
    /\ fold_left (process_line opts) lines (c, w)
       = fold_left (process_line (set_squeeze_blanks false opts))
           (emitted_lines opts (last_was_blank c) lines) (c, w)
    /\ no_adjacent_blanks (emitted_lines opts (last_was_blank c) lines)
    /\ (let r := process_files opts files (false, initial_counters, w) in
        let all := lines_read (fs w) (cin w) files in
        same_output (counters_of r, world_of r)
          (fold_left (process_line (set_squeeze_blanks false opts))
             (emitted_lines opts false all) (initial_counters, w))
        /\ no_adjacent_blanks (emitted_lines opts false all))
    /\ emitted_lines opts false (line :: lines)
       = line :: emitted_lines opts (empty line) lines
    /\ (last_was_blank c = false ->
        process_line opts (c, w) line
        = process_line (set_squeeze_blanks false opts) (c, w) line
        /\ cout (snd (process_line opts (c, w) line))
           = cout w
               ++ (if number_lines opts
                      || (number_non_blank opts && negb (empty line))
                   then number_prefix (line_number c) else EmptyString)
               ++ transform_line line opts ++ nl).
Proof.
  intros opts c w line lines files Hs.
  split; [|split; [|split; [|split; [|split]]]].
  - intros El Hb. rewrite process_line_eq, Hs, El, Hb. reflexivity.
  - apply squeezed_lines_as_unsqueezed.
  - now apply emitted_lines_no_adjacent_blanks.
  - cbv zeta. split; [|now apply emitted_lines_no_adjacent_blanks].
    destruct (process_files_spec opts files false initial_counters w)
      as (_ & H & _).
    rewrite squeezed_lines_as_unsqueezed in H. exact H.
  - simpl. now rewrite andb_false_r.
  - intros Hb. rewrite !process_line_eq, Hb, andb_false_r.
    simpl squeeze_blanks. simpl andb. cbv iota.
    rewrite transform_line_squeeze_irrelevant.
    simpl number_lines. simpl number_non_blank. split; [reflexivity|].
    destruct (number_lines opts || (number_non_blank opts && negb (empty line)));
      reflexivity.
Qed.

Lemma squeeze_correct_witness :
  process_line (mkOptions false false false false true)
    (mkCounters 1 true, example_world) EmptyString
  = (mkCounters 1 true, example_world)
  /\ no_adjacent_blanks
       (emitted_lines (mkOptions false false false false true) false
          (lines_read example_fs (mkStream ["in"] false) ["gaps"; "blank"])).
Proof.
  destruct (squeeze_correct (mkOptions false false false false true)
              (mkCounters 1 true) example_world EmptyString
              ["a"; EmptyString; EmptyString; "b"] ["gaps"; "blank"]
              eq_refl)
    as (H1 & _ & _ & (_ & H4) & _ & _).
  split; [apply H1; reflexivity | exact H4].
Defined.

(** ** Continuity across sources *)

Example squeeze_across_two_sources :
  main ["mycat"; "-s"; "gaps"; "blank"] example_world
  = (0, mkWorld example_fs (mkStream ["in"] false)
          ("a" ++ nl ++ nl ++ "b" ++ nl ++ nl ++ "z" ++ nl) EmptyString).
Proof. reflexivity. Qed.

(** C4. The counters leaving one source are the counters entering the
    next: processing a list of sources is processing its first part and
    then, from the state reached, the rest, and what the run writes and
    counts is what the read loop does on the lines of all sources laid end
    to end in the order given.  With [-n], a file with the lines a, b
    followed by a file with the line c is numbered 1, 2, 3; with [-s], a
    file ending in an empty line followed by a file beginning with one
    shows a single empty line at the boundary. *)
Theorem state_continuous_across_sources :
  forall (opts : Options) (files1 files2 : list string) (h : bool)
         (c : Counters) (w : World),
    process_files opts (files1 ++ files2)%list (h, c, w)
    = process_files opts files2 (process_files opts files1 (h, c, w))
    /\ (let r := process_files opts (files1 ++ files2)%list (h, c, w) in
        same_output (counters_of r, world_of r)
          (fold_left (process_line opts)
             (lines_read (fs w) (cin w) (files1 ++ files2)%list) (c, w)))
    /\ cout (snd (main ["mycat"; "-n"; "ab"; "c"] example_world))
       = "     1 a" ++ nl ++ "     2 b" ++ nl ++ "     3 c" ++ nl
    /\ cout (snd (main ["mycat"; "-s"; "gaps"; "blank"] example_world))
       = "a" ++ nl ++ nl ++ "b" ++ nl ++ nl ++ "z" ++ nl.
Proof.
  intros opts files1 files2 h c w. split; [|split; [|split]].
  - unfold process_files. apply fold_left_app.
  - cbv zeta.
    now destruct (process_files_spec opts (files1 ++ files2)%list h c w)
      as (_ & H & _).
  - reflexivity.
  - reflexivity.
Qed.

(** ** Failing sources *)

Lemma parse_flags_frame (flags : string) :
  forall (opts : Options) (w : World),
    fs (snd (parse_flags flags opts w)) = fs w
    /\ cin (snd (parse_flags flags opts w)) = cin w
    /\ cout (snd (parse_flags flags opts w)) = cout w.
Proof.
  induction flags as [|ch rest IH]; intros opts w; simpl; [now auto|].
  repeat match goal with
         | |- context [if ?b then _ else _] =>
             destruct b; [solve [apply IH | now auto]|]
         end.
  now auto.
Qed.

Lemma parse_loop_frame (args : list string) :
  forall (stop : bool) (opts : Options) (files : list string) (w : World),
    fs (snd (parse_loop args stop opts files w)) = fs w
    /\ cin (snd (parse_loop args stop opts files w)) = cin w
    /\ cout (snd (parse_loop args stop opts files w)) = cout w.
Proof.
  induction args as [|arg rest IH]; intros stop opts files w; simpl;
    [now auto|].
  destruct (arg =? "--")%string; [apply IH|].
  destruct (negb stop && (front arg =? "-")%char
            && (1 <? String.length arg)%nat); [|apply IH].
  destruct (arg =? "-")%string; [apply IH|].
  destruct (parse_flags_frame (from_index_1 arg) opts w) as (F1 & F2 & F3).
  destruct (parse_flags (from_index_1 arg) opts w) as [[ok opts'] w'].
  simpl in F1, F2, F3. destruct ok.
  - destruct (IH stop opts' files w') as (I1 & I2 & I3).
    rewrite I1, I2, I3. now auto.
  - simpl. now auto.
Qed.

Lemma parse_arguments_frame (argv : list string) (opts : Options)
    (files : list string) (w : World) :
  fs (snd (parse_arguments argv opts files w)) = fs w
  /\ cin (snd (parse_arguments argv opts files w)) = cin w
  /\ cout (snd (parse_arguments argv opts files w)) = cout w.
Proof.
  unfold parse_arguments.
  pose proof (parse_loop_frame (tl argv) false opts files w) as H.
  destruct (parse_loop (tl argv) false opts files w) as [[[ok o] f] w'].
  now destruct ok.
Qed.

Lemma main_exit_code (argv : list string) (w : World) :
  fst (main argv w)
  = let '(parsed, _, files, _) := parse_arguments argv default_options [] w in
    if parsed
    then if existsb (source_fails (fs w) (cin w))
              match files with [] => ["-"] | _ => files end
         then 1 else 0
    else 1.
Proof.
  unfold main.
  destruct (parse_arguments_frame argv default_options [] w) as (F1 & F2 & _).
  destruct (parse_arguments argv default_options [] w) as [[[parsed o] f] w1].
  simpl in F1, F2. destruct parsed; simpl; [|reflexivity].
  destruct (process_files_spec o match f with [] => ["-"] | _ => f end
              false initial_counters w1) as (H & _).
  destruct (process_files o match f with [] => ["-"] | _ => f end
              (false, initial_counters, w1)) as [[had c1] w2].
  unfold had_errors_of in H. simpl in H. rewrite H, F1, F2. reflexivity.
Qed.

Example one_missing_of_three :
  main ["mycat"; "ab"; "nope"; "c"] example_world
  = (1, mkWorld example_fs (mkStream ["in"] false)
          ("a" ++ nl ++ "b" ++ nl ++ "c" ++ nl)
          ("mycat: nope: No such file or directory" ++ nl)).
Proof. reflexivity. Qed.

(** No source stops the run.  The loop of [main] applied to a list of
    sources is, for each source in it, the loop on the sources before it,
    then that source, then the loop on the sources after it; and one source,
    from whatever state, has all the lines it delivers processed and adds
    its own failure (access check, open, or read error) to [had_errors].
    The exit code is 1 when [parse_arguments] returns false; otherwise it is
    1 if some source fails and 0 if none does.  For "-" failing means that
    [std::cin] has [badbit] set. *)
Theorem failures_do_not_abort :
  forall (argv : list string) (w : World) (opts : Options)
         (before after : list string) (f : string) (h : bool) (c : Counters)
         (w0 : World),
    fst (main argv w)
    = (let '(parsed, _, files, _) :=
         parse_arguments argv default_options [] w in
       if parsed
       then if existsb (source_fails (fs w) (cin w))
                 match files with [] => ["-"] | _ => files end
            then 1 else 0
       else 1)
    /\ process_files opts (before ++ f :: after)%list (h, c, w0)
       = process_files opts after
           (process_source opts (process_files opts before (h, c, w0)) f)
    /\ (let r := process_source opts (h, c, w0) f in
        had_errors_of r = h || source_fails (fs w0) (cin w0) f
        /\ same_output (counters_of r, world_of r)
             (fold_left (process_line opts)
                (source_lines (fs w0) (cin w0) f) (c, w0)))
    /\ (let r := process_files opts (before ++ f :: after)%list (h, c, w0) in
        had_errors_of r
        = h || existsb (source_fails (fs w0) (cin w0))
                 (before ++ f :: after)%list
        /\ same_output (counters_of r, world_of r)
             (fold_left (process_line opts)
                (lines_read (fs w0) (cin w0) (before ++ f :: after)%list)
                (c, w0)))
    /\ main ["mycat"; "ab"; "nope"; "c"] example_world
       = (1, mkWorld example_fs (mkStream ["in"] false)
               ("a" ++ nl ++ "b" ++ nl ++ "c" ++ nl)
               ("mycat: nope: No such file or directory" ++ nl)).
Proof.
  intros argv w opts before after f h c w0.
  split; [apply main_exit_code|]. split; [|split; [|split]].
  - unfold process_files. now rewrite fold_left_app.
  - cbv zeta.
    destruct (process_source_spec opts h c w0 f) as (H1 & H2 & _).
    now split.
  - cbv zeta.
    destruct (process_files_spec opts (before ++ f :: after)%list h c w0)
      as (H1 & H2 & _).
    now split.
  - reflexivity.
Qed.

(** C9. When [ifstream::open] fails on a named source, [process_file]
    returns false having written only the diagnostic to [std::cerr]:
    [std::cout], [line_number] and [last_was_blank] are what they were.  The
    same holds for the whole visit of that source in [main], whether or not
    the access check had already turned it away. *)
Theorem open_failure_is_atomic :
  forall (opts : Options) (h : bool) (c : Counters) (w : World)
         (filename e : string),
    (filename =? "-")%string = false ->
    open_error (fs w filename) = Some e ->
    process_file filename opts c w
    = (false, c, write_cerr (diagnostic filename e) w)
    /\ cout (world_of (process_file filename opts c w)) = cout w
    /\ (let r := process_source opts (h, c, w) filename in
        counters_of r = c
        /\ cout (world_of r) = cout w
        /\ had_errors_of r = true).
Proof.
  intros opts h c w filename e E O.
  assert (P : process_file filename opts c w
              = (false, c, write_cerr (diagnostic filename e) w)).
  { unfold process_file. now rewrite E, O. }
  split; [exact P|]. split; [now rewrite P|].
  cbv zeta.
  destruct (process_source_spec opts h c w filename) as (H1 & [H2 H3] & _).
  unfold source_fails, source_lines, opens in H1, H2, H3.
  rewrite E, O in H1, H2, H3. rewrite andb_false_r in H2, H3.
  simpl in H1, H2, H3. rewrite orb_true_r in H1. simpl in H1.
  rewrite orb_true_r in H1. now auto.
Qed.

Lemma open_failure_is_atomic_witness :
  process_file "nope" (mkOptions true false true true true)
    (mkCounters 7 true) example_world
  = (false, mkCounters 7 true,
     write_cerr (diagnostic "nope" "No such file or directory") example_world).
Proof.
  apply (open_failure_is_atomic (mkOptions true false true true true) false
           (mkCounters 7 true) example_world "nope"
           "No such file or directory"); reflexivity.
Defined.

(** ** Read errors *)

Lemma process_source_acquired (opts : Options) (h : bool) (c : Counters)
    (w : World) (filename : string) :
  (filename =? "-")%string = true
  \/ (passes_access_check (fs w filename) = true
      /\ open_error (fs w filename) = None) ->
  process_source opts (h, c, w) filename
  = let '(ok, c1, w1) :=
      if (filename =? "-")%string
      then read_loop filename opts (cin w) c (drain_cin w)
      else read_loop filename opts (contents (fs w filename)) c w in
    (if ok then h else true, c1, w1).
Proof.
  intros H. unfold process_source, process_file.
  destruct (filename =? "-")%string eqn:E; simpl negb; cbv iota.
  - destruct (read_loop filename opts (cin w) c (drain_cin w)) as [[ok c1] w1].
    now destruct ok.
  - destruct H as [H|[P O]]; [discriminate|].
    destruct (check_file_access_spec filename w E) as (A1 & _ & _ & _ & A5).
    destruct (check_file_access filename w) as [accessible w0].
    simpl in A1, A5. rewrite P in A1. subst accessible. rewrite (A5 P).
    simpl. rewrite O.
    destruct (read_loop filename opts (contents (fs w filename)) c w)
      as [[ok c1] w1].
    now destruct ok.
Qed.

Example read_error_then_next_source :
  main ["mycat"; "broken"; "c"] example_world
  = (1, mkWorld example_fs (mkStream ["in"] false)
          ("x" ++ nl ++ "c" ++ nl) ("mycat: broken: Read error" ++ nl)).
Proof. reflexivity. Qed.

(** What line 244 reports.  For a source that was acquired (standard
    input, or a file that passed the access check and opened), the visit
    first runs the read loop
    over every line the source delivers.  If the stream is then bad, the
    text "mycat: <name>: Read error" and a newline is appended to
    [std::cerr], [process_file] returns false and [had_errors] becomes
    true and stays true to the end of the run; if it is not bad, nothing is
    appended and [had_errors] keeps its value.  In both cases the loop of
    [main] goes on with the remaining sources from the state reached.
    Whether a failed read makes the stream bad depends on the stream:
    [ifstream_over] and [cin_over]. *)
Theorem read_error_reported :
  forall (opts : Options) (h : bool) (c : Counters) (w : World)
         (filename : string) (rest : list string),
    (filename =? "-")%string = true
    \/ (passes_access_check (fs w filename) = true
        /\ open_error (fs w filename) = None) ->
    let input :=
      if (filename =? "-")%string then cin w else contents (fs w filename) in
    let r := process_source opts (h, c, w) filename in
    same_output (counters_of r, world_of r)
      (fold_left (process_line opts) (pending input) (c, w))
    /\ cerr (world_of r)
       = cerr w ++ (if bad input
                    then "mycat: " ++ filename ++ ": Read error" ++ nl
                    else EmptyString)
    /\ fst (fst (process_file filename opts c w)) = negb (bad input)
    /\ had_errors_of r = (if bad input then true else h)
    /\ process_files opts (filename :: rest) (h, c, w)
       = process_files opts rest r
    /\ (bad input = true ->
        had_errors_of (process_files opts (filename :: rest) (h, c, w)) = true).
Proof.
  intros opts h c w filename rest Hacq input r.
  assert (R : had_errors_of r = (if bad input then true else h)
              /\ same_output (counters_of r, world_of r)
                   (fold_left (process_line opts) (pending input) (c, w))
              /\ cerr (world_of r)
                 = cerr w ++ (if bad input
                              then "mycat: " ++ filename ++ ": Read error" ++ nl
                              else EmptyString)).
  { subst r input. rewrite (process_source_acquired opts h c w filename Hacq).
    destruct (filename =? "-")%string eqn:E.
    - pose proof (read_loop_spec filename opts (cin w) c (drain_cin w)) as H.
      cbv zeta in H. destruct H as (H1 & H2 & H3 & _ & _ & H6).
      destruct (read_loop filename opts (cin w) c (drain_cin w))
        as [[ok c1] w1].
      unfold had_errors_of, counters_of, world_of in *. simpl in *. subst ok.
      split; [now destruct (bad (cin w))|]. split; [|exact H6].
      apply same_output_trans
        with (fold_left (process_line opts) (pending (cin w)) (c, drain_cin w)).
      + now split.
      + apply lines_same_output. now split.
    - pose proof (read_loop_spec filename opts (contents (fs w filename)) c w)
        as H.
      cbv zeta in H. destruct H as (H1 & H2 & H3 & _ & _ & H6).
      destruct (read_loop filename opts (contents (fs w filename)) c w)
        as [[ok c1] w1].
      unfold had_errors_of, counters_of, world_of in *. simpl in *. subst ok.
      split; [now destruct (bad (contents (fs w filename)))|].
      split; [now split | exact H6]. }
  destruct R as (R1 & R2 & R3).
  split; [exact R2|]. split; [exact R3|]. split; [|split; [exact R1|split]].
  - pose proof (process_file_spec filename opts c w) as H. cbv zeta in H.
    destruct H as (H1 & _). rewrite H1. subst input. unfold opens.
    destruct (filename =? "-")%string; [reflexivity|].
    destruct Hacq as [Hacq|[_ O]]; [discriminate|]. now rewrite O.
  - reflexivity.
  - intros Hbad. change (process_files opts (filename :: rest) (h, c, w))
      with (process_files opts rest r).
    rewrite Hbad in R1.
    destruct r as [[h1 c1] w1]. unfold had_errors_of in R1. simpl in R1.
    subst h1.
    now destruct (process_files_spec opts rest true c1 w1) as (H & _).
Qed.

Lemma read_error_reported_witness :
  cerr (world_of (process_source default_options
                    (false, initial_counters, example_world) "broken"))
  = "mycat: broken: Read error" ++ nl
  /\ had_errors_of
       (process_files default_options ["broken"; "c"]
          (false, initial_counters, example_world)) = true.
Proof.
  destruct (read_error_reported default_options false initial_counters
              example_world "broken" ["c"])
    as (_ & H2 & _ & _ & _ & H6).
  - right. split; reflexivity.
  - split; [exact H2 | apply H6; reflexivity].
Defined.

(** ** Precedence of -b over -n *)

Lemma override_number_lines_agree (o1 o2 : Options) :
  agree_except_number_lines o1 o2 ->
  number_non_blank o1 = true ->
  override_number_lines o1 = override_number_lines o2.
Proof.
  intros (A1 & A2 & A3 & A4) H. unfold override_number_lines.
  rewrite <- A1, H. unfold set_number_lines. congruence.
Qed.

Lemma override_number_lines_resolved (o : Options) :
  number_non_blank (override_number_lines o) = true ->
  number_lines (override_number_lines o) = false.
Proof.
  unfold override_number_lines.
  destruct (number_non_blank o) eqn:E; simpl; [reflexivity|congruence].
Qed.

Lemma parse_flags_agree (flags : string) :
  forall (o1 o2 : Options) (w : World),
    agree_except_number_lines o1 o2 ->
    fst (fst (parse_flags flags o1 w)) = fst (fst (parse_flags flags o2 w))
    /\ snd (parse_flags flags o1 w) = snd (parse_flags flags o2 w)
    /\ agree_except_number_lines (snd (fst (parse_flags flags o1 w)))
         (snd (fst (parse_flags flags o2 w)))
    /\ (number_non_blank o1 = true ->
        number_non_blank (snd (fst (parse_flags flags o1 w))) = true).
Proof.
  induction flags as [|ch rest IH]; intros o1 o2 w A; simpl; [now auto|].
  destruct A as (A1 & A2 & A3 & A4).
  repeat match goal with
         | |- context [if ?b then _ else _] =>
             destruct b;
             [solve [ destruct (IH (set_number_lines true o1)
                                  (set_number_lines true o2) w) as (I1&I2&I3&I4);
                      [now repeat split | now auto]
                    | destruct (IH (set_number_non_blank true o1)
                                  (set_number_non_blank true o2) w) as (I1&I2&I3&I4);
                      [now repeat split | now auto]
                    | destruct (IH (set_show_ends true o1)
                                  (set_show_ends true o2) w) as (I1&I2&I3&I4);
                      [repeat split; simpl; congruence | now auto]
                    | destruct (IH (set_show_tabs true o1)
                                  (set_show_tabs true o2) w) as (I1&I2&I3&I4);
                      [repeat split; simpl; congruence | now auto]
                    | destruct (IH (set_squeeze_blanks true o1)
                                  (set_squeeze_blanks true o2) w) as (I1&I2&I3&I4);
                      [repeat split; simpl; congruence | now auto]
                    | simpl; repeat split; auto ]|]
         end.
  simpl. repeat split; auto.
Qed.

Lemma parse_loop_agree (args : list string) :
  forall (stop : bool) (o1 o2 : Options) (files : list string) (w : World),
    agree_except_number_lines o1 o2 ->
    exists (ok : bool) (o1' o2' : Options) (files' : list string) (w' : World),
      parse_loop args stop o1 files w = (ok, o1', files', w')
      /\ parse_loop args stop o2 files w = (ok, o2', files', w')
      /\ agree_except_number_lines o1' o2'
      /\ (number_non_blank o1 = true -> number_non_blank o1' = true).
Proof.
  induction args as [|arg rest IH]; intros stop o1 o2 files w A; simpl.
  - exists true, o1, o2, files, w. now auto.
  - destruct (arg =? "--")%string; [now apply IH|].
    destruct (negb stop && (front arg =? "-")%char
              && (1 <? String.length arg)%nat); [|now apply IH].
    destruct (arg =? "-")%string; [now apply IH|].
    destruct (parse_flags_agree (from_index_1 arg) o1 o2 w A)
      as (F1 & F2 & F3 & F4).
    destruct (parse_flags (from_index_1 arg) o1 w) as [[ok1 p1] w1].
    destruct (parse_flags (from_index_1 arg) o2 w) as [[ok2 p2] w2].
    simpl in F1, F2, F3, F4. subst ok2 w2. destruct ok1.
    + destruct (IH stop p1 p2 files w1 F3)
        as (ok & q1 & q2 & f' & w' & I1 & I2 & I3 & I4).
      exists ok, q1, q2, f', w'. now auto 10.
    + exists false, p1, p2, files, w1. now auto.
Qed.

Lemma main_of_parse_loop (argv : list string) (w : World) :
  main argv w
  = match parse_loop (tl argv) false default_options [] w with
    | (true, o, f, w') =>
        let '(had_errors, _, w'') :=
          process_files (override_number_lines o)
            match f with [] => ["-"] | _ => f end
            (false, initial_counters, w') in
        (if had_errors then 1 else 0, w'')
    | (false, _, _, w') => (1, print_usage (hd EmptyString argv) w')
    end.
Proof.
  unfold main, parse_arguments.
  destruct (parse_loop (tl argv) false default_options [] w)
    as [[[ok o] f] w'].
  now destruct ok.
Qed.

Lemma main_agree (prog : string) (args1 args2 : list string) (w : World)
    (ok : bool) (o1 o2 : Options) (files : list string) (w' : World) :
  parse_loop args1 false default_options [] w = (ok, o1, files, w') ->
  parse_loop args2 false default_options [] w = (ok, o2, files, w') ->
  agree_except_number_lines o1 o2 ->
  number_non_blank o1 = true ->
  main (prog :: args1) w = main (prog :: args2) w.
Proof.
  intros P1 P2 A H. rewrite !main_of_parse_loop. simpl tl. rewrite P1, P2.
  destruct ok; [|reflexivity].
  now rewrite (override_number_lines_agree o1 o2 A H).
Qed.

Lemma main_extra_n_after_b (prog : string) (args : list string) (w : World) :
  main (prog :: "-b" :: "-n" :: args) w = main (prog :: "-b" :: args) w.
Proof.
  destruct (parse_loop_agree args false
              (set_number_lines true (set_number_non_blank true default_options))
              (set_number_non_blank true default_options) [] w)
    as (ok & q1 & q2 & f' & w' & I1 & I2 & I3 & I4);
    [now repeat split|].
  apply (main_agree prog _ _ w ok q1 q2 f' w'); auto.
Qed.

Lemma main_extra_n_before_b (prog : string) (args : list string) (w : World) :
  main (prog :: "-n" :: "-b" :: args) w = main (prog :: "-b" :: args) w.
Proof.
  destruct (parse_loop_agree args false
              (set_number_non_blank true (set_number_lines true default_options))
              (set_number_non_blank true default_options) [] w)
    as (ok & q1 & q2 & f' & w' & I1 & I2 & I3 & I4);
    [now repeat split|].
  apply (main_agree prog _ _ w ok q1 q2 f' w'); auto.
Qed.

(** The test of line 233 on its own gives [number_lines] the last word: a
    blank line is numbered when both flags reach it.  The precedence of -b
    is the work of [parse_arguments] alone. *)
Remark numbering_test_has_no_precedence :
  cout (snd (process_line (mkOptions true true false false false)
               (initial_counters, example_world) EmptyString))
  = "     1 " ++ nl.
Proof. reflexivity. Qed.

Example both_flags_like_b_alone :
  main ["mycat"; "-n"; "-b"; "gaps"] example_world
  = main ["mycat"; "-b"; "gaps"] example_world
  /\ cout (snd (main ["mycat"; "-nb"; "gaps"] example_world))
     = "     1 a" ++ nl ++ nl ++ nl ++ "     2 b" ++ nl ++ nl.
Proof. split; reflexivity. Qed.

(** C6. Let two command lines collect the same files and the same flags
    except that the first collects -n together with -b where the second
    collects -b alone.  [parse_arguments] clears [number_lines] before it
    returns, so both command lines yield the same configuration, and [main]
    behaves the same on them in every world: same exit code, same output,
    same diagnostics.  In particular adding -n before or after -b changes
    nothing.  Every configuration [parse_arguments] returns with
    [number_non_blank] set has [number_lines] clear, so the read loop never
    sees both flags. *)
Theorem non_blank_numbering_takes_precedence :
  forall (prog : string) (args1 args2 : list string) (w : World)
         (both alone : Options) (files : list string) (w' : World),
    parse_loop args1 false default_options [] w = (true, both, files, w') ->
    parse_loop args2 false default_options [] w = (true, alone, files, w') ->
    number_lines both = true ->
    number_non_blank both = true ->
    alone = set_number_lines false both ->
    override_number_lines both = alone
    /\ parse_arguments (prog :: args1) default_options [] w
       = parse_arguments (prog :: args2) default_options [] w
    /\ main (prog :: args1) w = main (prog :: args2) w
    /\ (forall args : list string,
          main (prog :: "-n" :: "-b" :: args) w
          = main (prog :: "-b" :: args) w
          /\ main (prog :: "-b" :: "-n" :: args) w
             = main (prog :: "-b" :: args) w)
    /\ (forall (argv : list string) (o : Options) (f : list string)
               (w1 : World),
          parse_arguments argv default_options [] w = (true, o, f, w1) ->
          number_non_blank o = true -> number_lines o = false).
Proof.
  intros prog args1 args2 w both alone files w' P1 P2 Hn Hb Halone.
  assert (O1 : override_number_lines both = alone).
  { unfold override_number_lines. now rewrite Hb, Halone. }
  assert (O2 : override_number_lines alone = alone).
  { unfold override_number_lines. subst alone. simpl. now rewrite Hb. }
  split; [exact O1|]. split; [|split; [|split]].
  - unfold parse_arguments. simpl tl. now rewrite P1, P2, O1, O2.
  - rewrite !main_of_parse_loop. simpl tl. now rewrite P1, P2, O1, O2.
  - intros args. split;
      [apply main_extra_n_before_b | apply main_extra_n_after_b].
  - intros argv o f w1. unfold parse_arguments.
    destruct (parse_loop (tl argv) false default_options [] w)
      as [[[ok o0] f0] w0].
    destruct ok; [|discriminate].
    intros [= <- _ _]. apply override_number_lines_resolved.
Qed.

Lemma non_blank_numbering_takes_precedence_witness :
  override_number_lines (mkOptions true true false false false)
  = mkOptions false true false false false
  /\ main ["mycat"; "-n"; "-b"; "gaps"] example_world
     = main ["mycat"; "-b"; "gaps"] example_world.
Proof.
  destruct (non_blank_numbering_takes_precedence "mycat"
              ["-n"; "-b"; "gaps"] ["-b"; "gaps"] example_world
              (mkOptions true true false false false)
              (mkOptions false true false false false)
              ["gaps"] example_world
              eq_refl eq_refl eq_refl eq_refl eq_refl)
    as (H1 & _ & H3 & _).
  split; [exact H1 | exact H3].
Defined.

(** * Further properties of the program *)

(** ** Option letters (lines 75-100) *)

Lemma valid_flag_cases (c : ascii) :
  valid_flag c = true ->
  c = "n"%char \/ c = "b"%char \/ c = "E"%char \/ c = "T"%char
  \/ c = "s"%char.
Proof.
  unfold valid_flag. intros H.
  repeat (apply orb_true_iff in H; destruct H as [H|H]);
    apply Ascii.eqb_eq in H; auto 6.
Qed.

Lemma parse_flags_invalid_head (c : ascii) (rest : string) (opts : Options)
    (w : World) :
  valid_flag c = false ->
  parse_flags (String c rest) opts w
  = (false, opts,
     if (c =? "h")%char then w
     else write_cerr ("Try mycat -h for more information." ++ nl)
            (write_cerr ("mycat: invalid option -- '" ++ str c ++ "'" ++ nl) w)).
Proof.
  unfold valid_flag. intros H.
  repeat (apply orb_false_iff in H; destruct H as [H ?]).
  simpl. repeat match goal with E : (c =? _)%char = false |- _ =>
                  rewrite E; clear E end.
  now destruct (c =? "h")%char.
Qed.

Lemma parse_flags_accepted (flags : string) :
  forall (opts : Options) (w : World),
    all_valid_flags flags = true ->
    parse_flags flags opts w
    = (true,
       mkOptions (number_lines opts || occurs "n" flags)
                 (number_non_blank opts || occurs "b" flags)
                 (show_ends opts || occurs "E" flags)
                 (show_tabs opts || occurs "T" flags)
                 (squeeze_blanks opts || occurs "s" flags),
       w).
Proof.
  induction flags as [|c rest IH]; intros opts w H.
  - simpl. rewrite !orb_false_r. now destruct opts.
  - cbn [all_valid_flags] in H. apply andb_true_iff in H as [Hc Hr].
    destruct (valid_flag_cases c Hc) as [-> | [-> | [-> | [-> | ->]]]];
      cbn [parse_flags]; simpl Ascii.eqb; cbv iota;
      rewrite (IH _ w Hr); simpl;
      rewrite ?orb_true_r, ?orb_false_r; reflexivity.
Qed.

(** X1. A group of option letters made only of n, b, E, T and s is
    accepted: nothing is written, and each option is set afterwards exactly
    if it was set before or its letter occurs in the group.  Order and
    repetition of the letters make no difference. *)
Theorem accepted_flags_set_options :
  forall (flags : string) (opts : Options) (w : World),
    all_valid_flags flags = true ->
    parse_flags flags opts w
    = (true,
       mkOptions (number_lines opts || occurs "n" flags)
                 (number_non_blank opts || occurs "b" flags)
                 (show_ends opts || occurs "E" flags)
                 (show_tabs opts || occurs "T" flags)
                 (squeeze_blanks opts || occurs "s" flags),
       w).
Proof. intros flags opts w. apply parse_flags_accepted. Qed.

Lemma accepted_flags_set_options_witness :
  parse_flags "sEns" default_options example_world
  = (true, mkOptions true false true false true, example_world).
Proof.
  apply (accepted_flags_set_options "sEns" default_options example_world).
  reflexivity.
Defined.

Lemma parse_flags_first_invalid (flags : string) :
  forall (opts : Options) (w : World),
    match first_invalid_flag flags with
    | None => all_valid_flags flags = true
    | Some c =>
        fst (fst (parse_flags flags opts w)) = false
        /\ snd (parse_flags flags opts w)
           = (if (c =? "h")%char then w
              else write_cerr ("Try mycat -h for more information." ++ nl)
                     (write_cerr
                        ("mycat: invalid option -- '" ++ str c ++ "'" ++ nl)
                        w))
    end.
Proof.
  induction flags as [|c rest IH]; intros opts w; [reflexivity|].
  cbn [first_invalid_flag all_valid_flags].
  destruct (valid_flag c) eqn:Hc.
  - destruct (valid_flag_cases c Hc) as [-> | [-> | [-> | [-> | ->]]]];
      cbn [parse_flags]; simpl Ascii.eqb; cbv iota;
      match goal with
      | |- context [parse_flags rest ?o w] => specialize (IH o w)
      end;
      destruct (first_invalid_flag rest); simpl; auto.
  - rewrite (parse_flags_invalid_head c rest opts w Hc). now split.
Qed.

(** X2. When a group of option letters holds a character other than n, b,
    E, T, s, the function returns false at the first such character: for
    h nothing is written, for any other character the two lines naming
    that character are appended to [std::cerr] once.  Characters after it
    are not looked at, so a later invalid letter is never reported. *)
Theorem first_invalid_flag_reported :
  forall (flags : string) (c : ascii) (opts : Options) (w : World),
    first_invalid_flag flags = Some c ->
    fst (fst (parse_flags flags opts w)) = false
    /\ snd (parse_flags flags opts w)
       = (if (c =? "h")%char then w
          else write_cerr ("Try mycat -h for more information." ++ nl)
                 (write_cerr
                    ("mycat: invalid option -- '" ++ str c ++ "'" ++ nl) w)).
Proof.
  intros flags c opts w H.
  pose proof (parse_flags_first_invalid flags opts w) as P.
  now rewrite H in P.
Qed.

Lemma first_invalid_flag_reported_witness :
  cerr (snd (parse_flags "nxEy" default_options example_world))
  = "mycat: invalid option -- 'x'" ++ nl
      ++ "Try mycat -h for more information." ++ nl.
Proof.
  destruct (first_invalid_flag_reported "nxEy" "x" default_options
              example_world eq_refl) as [_ H].
  rewrite H. reflexivity.
Defined.

(** ** The argument loop (lines 57-105) *)

Lemma app_singleton_assoc (files : list string) (arg : string)
    (more : list string) :
  ((files ++ [arg]) ++ more = files ++ arg :: more)%list.
Proof. now rewrite <- app_assoc. Qed.

Lemma parse_loop_stopped (args : list string) :
  forall (opts : Options) (files : list string) (w : World),
    parse_loop args true opts files w
    = (true, opts,
       (files ++ filter (fun a => negb (is_double_dash a)) args)%list, w).
Proof.
  induction args as [|arg rest IH]; intros opts files w; simpl.
  - now rewrite app_nil_r.
  - unfold is_double_dash at 1. destruct (arg =? "--")%string; simpl.
    + apply IH.
    + rewrite IH. now rewrite app_singleton_assoc.
Qed.

(** X3. After a "--" no argument is read as options: every later argument
    is appended to the files in the order given, whatever it looks like,
    except that each further "--" is dropped instead of being taken as a
    file name.  Options and streams stay as they are and the function
    succeeds. *)
Theorem double_dash_ends_options :
  forall (prog : string) (args : list string) (opts : Options)
         (files : list string) (w : World),
    parse_loop ("--" :: args) false opts files w
    = (true, opts,
       (files ++ filter (fun a => negb (is_double_dash a)) args)%list, w)
    /\ parse_arguments (prog :: "--" :: args) opts files w
       = (true, override_number_lines opts,
          (files ++ filter (fun a => negb (is_double_dash a)) args)%list, w).
Proof.
  intros prog args opts files w.
  assert (P : parse_loop ("--" :: args) false opts files w
              = (true, opts,
                 (files ++ filter (fun a => negb (is_double_dash a)) args)%list,
                 w)).
  { cbn [parse_loop]. simpl String.eqb. cbv iota. apply parse_loop_stopped. }
  split; [exact P|].
  unfold parse_arguments. cbn [tl]. now rewrite P.
Qed.

Example double_dash_example :
  parse_arguments ["mycat"; "-n"; "--"; "-b"; "--"; "-"; "x"] default_options
    [] example_world
  = (true, mkOptions true false false false false, ["-b"; "-"; "x"],
     example_world).
Proof. reflexivity. Qed.

Lemma parse_loop_plain (args : list string) :
  forall (stop : bool) (opts : Options) (files : list string) (w : World),
    forallb (fun a => negb (flag_shaped a)) args = true ->
    parse_loop args stop opts files w = (true, opts, (files ++ args)%list, w).
Proof.
  induction args as [|arg rest IH]; intros stop opts files w H; simpl.
  - now rewrite app_nil_r.
  - cbn [forallb] in H. apply andb_true_iff in H as [Ha Hr].
    apply negb_true_iff in Ha.
    assert (D : (arg =? "--")%string = false).
    { destruct (String.eqb_spec arg "--"); [subst; discriminate|reflexivity]. }
    rewrite D. unfold flag_shaped in Ha. rewrite <- andb_assoc, Ha, andb_false_r.
    rewrite (IH stop opts _ w Hr). now rewrite app_singleton_assoc.
Qed.

(** X4. Arguments none of which begins with a dash followed by further
    characters are all file names: the empty string, a lone "-" and
    ordinary names are appended to the files in the order given, no option
    changes and nothing is written. *)
Theorem plain_arguments_are_files :
  forall (prog : string) (args : list string) (opts : Options)
         (files : list string) (w : World),
    forallb (fun a => negb (flag_shaped a)) args = true ->
    parse_arguments (prog :: args) opts files w
    = (true, override_number_lines opts, (files ++ args)%list, w).
Proof.
  intros prog args opts files w H. unfold parse_arguments. cbn [tl].
  now rewrite (parse_loop_plain args false opts files w H).
Qed.

Lemma plain_arguments_are_files_witness :
  parse_arguments ["mycat"; "a"; "-"; EmptyString; "b-c"] default_options []
    example_world
  = (true, default_options, ["a"; "-"; EmptyString; "b-c"], example_world).
Proof.
  apply (plain_arguments_are_files "mycat" ["a"; "-"; EmptyString; "b-c"]
           default_options [] example_world).
  reflexivity.
Defined.

Lemma parse_flags_ok_iff (flags : string) (opts : Options) (w : World) :
  fst (fst (parse_flags flags opts w)) = all_valid_flags flags.
Proof.
  pose proof (parse_flags_first_invalid flags opts w) as P.
  destruct (all_valid_flags flags) eqn:V.
  - now rewrite (parse_flags_accepted flags opts w V).
  - destruct (first_invalid_flag flags); [tauto | congruence].
Qed.

Lemma parse_loop_ok_iff (args : list string) :
  forall (opts : Options) (files : list string) (w : World),
    fst (fst (fst (parse_loop args false opts files w)))
    = negb (existsb rejected_argument (before_double_dash args)).
Proof.
  induction args as [|arg rest IH]; intros opts files w; [reflexivity|].
  cbn [parse_loop before_double_dash]. unfold is_double_dash.
  destruct (arg =? "--")%string eqn:D.
  - now rewrite parse_loop_stopped.
  - cbn [existsb negb andb]. unfold rejected_argument at 1, flag_shaped.
    destruct ((front arg =? "-")%char && (1 <? String.length arg)%nat) eqn:F;
      cbn [andb negb orb]; [|apply IH].
    assert (L : (arg =? "-")%string = false).
    { destruct (String.eqb_spec arg "-"); [subst; discriminate|reflexivity]. }
    rewrite L.
    pose proof (parse_flags_ok_iff (from_index_1 arg) opts w) as V.
    destruct (parse_flags (from_index_1 arg) opts w) as [[ok o1] w1].
    simpl in V. subst ok.
    destruct (all_valid_flags (from_index_1 arg)); simpl; [apply IH|reflexivity].
Qed.

(** X5. [parse_arguments] returns false exactly when, in front of the first
    "--", some argument begins with a dash, has more than one character and
    holds a character other than n, b, E, T, s.  Arguments after "--" and
    the initial options and files have no influence on this. *)
Theorem parse_fails_iff_rejected_argument :
  forall (prog : string) (args : list string) (opts : Options)
         (files : list string) (w : World),
    fst (fst (fst (parse_arguments (prog :: args) opts files w)))
    = negb (existsb rejected_argument (before_double_dash args)).
Proof.
  intros prog args opts files w. unfold parse_arguments. cbn [tl].
  pose proof (parse_loop_ok_iff args opts files w) as H.
  destruct (parse_loop args false opts files w) as [[[ok o] f] w'].
  now destruct ok.
Qed.

Example help_after_double_dash_is_a_file :
  parse_arguments ["mycat"; "--"; "-h"] default_options [] example_world
  = (true, default_options, ["-h"], example_world)
  /\ fst (fst (fst (parse_arguments ["mycat"; "a"; "-nh"; "--"]
                      default_options [] example_world))) = false.
Proof. split; reflexivity. Qed.

Lemma flag_argument_step (s : string) (rest : list string) (opts : Options)
    (files : list string) (w : World) :
  s <> EmptyString ->
  s <> "-" ->
  parse_loop (String "-" s :: rest) false opts files w
  = match parse_flags s opts w with
    | (true, opts', w') => parse_loop rest false opts' files w'
    | (false, opts', w') => (false, opts', files, w')
    end.
Proof.
  intros Hne Hd. cbn [parse_loop].
  assert (D : (String "-" s =? "--")%string = false).
  { destruct (String.eqb_spec (String "-" s) "--") as [E|]; [|reflexivity].
    injection E as E. contradiction. }
  assert (L : (String "-" s =? "-")%string = false).
  { destruct (String.eqb_spec (String "-" s) "-") as [E|]; [|reflexivity].
    injection E as E. contradiction. }
  rewrite D, L. destruct s as [|a s']; [contradiction|]. reflexivity.
Qed.

Lemma parse_flags_app (s1 s2 : string) :
  forall (opts : Options) (w : World),
    parse_flags (s1 ++ s2) opts w
    = match parse_flags s1 opts w with
      | (true, opts', w') => parse_flags s2 opts' w'
      | (false, opts', w') => (false, opts', w')
      end.
Proof.
  induction s1 as [|c rest IH]; intros opts w; [reflexivity|].
  cbn [append parse_flags].
  repeat match goal with
         | |- context [if (c =? ?x)%char then _ else _] =>
             destruct (c =? x)%char; [solve [apply IH | reflexivity]|]
         end.
  reflexivity.
Qed.

(** X6. Option letters written in one argument act like the same letters
    split over two consecutive arguments: "-nE" is "-n" "-E".  This holds
    for any two non-empty groups other than a lone dash, valid or not: an
    invalid letter is reported the same way and stops the parse at the same
    point. *)
Theorem combined_flags_equal_separate :
  forall (s1 s2 : string) (rest : list string) (opts : Options)
         (files : list string) (w : World),
    s1 <> EmptyString -> s1 <> "-" ->
    s2 <> EmptyString -> s2 <> "-" ->
    parse_loop (String "-" (s1 ++ s2) :: rest) false opts files w
    = parse_loop (String "-" s1 :: String "-" s2 :: rest) false opts files w.
Proof.
  intros s1 s2 rest opts files w N1 D1 N2 D2.
  rewrite (flag_argument_step s1), (flag_argument_step (s1 ++ s2)); trivial.
  - rewrite parse_flags_app.
    destruct (parse_flags s1 opts w) as [[ok o1] w1]. destruct ok.
    + now rewrite (flag_argument_step s2).
    + now destruct (parse_flags s2 o1 w1) as [[ok2 o2] w2].
  - destruct s1; [contradiction|discriminate].
  - destruct s1 as [|a s1']; [contradiction|]. simpl. intros [= _ E].
    destruct s1'; [|discriminate]. simpl in E. contradiction.
Qed.

Lemma combined_flags_equal_separate_witness :
  parse_loop ["-nxE"; "f"] false default_options [] example_world
  = parse_loop ["-n"; "-xE"; "f"] false default_options [] example_world.
Proof.
  apply (combined_flags_equal_separate "n" "xE" ["f"] default_options []
           example_world); discriminate.
Defined.

(** ** Invalid options and the default source (lines 256-265) *)

(** X7. If an argument in front of the first "--" is rejected, [main]
    returns 1 after printing the usage text: nothing is written to
    [std::cout] and nothing is read from [std::cin], also when readable
    files were named before the offending argument. *)
Theorem rejected_option_reads_nothing :
  forall (prog : string) (args : list string) (w : World),
    existsb rejected_argument (before_double_dash args) = true ->
    fst (main (prog :: args) w) = 1
    /\ cout (snd (main (prog :: args) w)) = cout w
    /\ cin (snd (main (prog :: args) w)) = cin w
    /\ exists w1 : World,
         snd (main (prog :: args) w) = print_usage prog w1
         /\ cout w1 = cout w /\ cin w1 = cin w.
Proof.
  intros prog args w H. rewrite main_of_parse_loop. cbn [tl hd].
  pose proof (parse_loop_ok_iff args default_options [] w) as P.
  destruct (parse_loop_frame args false default_options [] w)
    as (_ & F2 & F3).
  destruct (parse_loop args false default_options [] w) as [[[ok o] f] w1].
  simpl in P, F2, F3. rewrite H in P. simpl in P. subst ok.
  simpl. repeat split; trivial. exists w1. now auto.
Qed.

Lemma rejected_option_reads_nothing_witness :
  fst (main ["mycat"; "ab"; "-nq"; "c"] example_world) = 1
  /\ cout (snd (main ["mycat"; "ab"; "-nq"; "c"] example_world))
     = EmptyString.
Proof.
  destruct (rejected_option_reads_nothing "mycat" ["ab"; "-nq"; "c"]
              example_world eq_refl) as (H1 & H2 & _).
  split; [exact H1 | exact H2].
Defined.

Lemma parse_loop_snoc_dash (args : list string) :
  forall (stop : bool) (opts : Options) (files : list string) (w : World),
    parse_loop (args ++ ["-"])%list stop opts files w
    = match parse_loop args stop opts files w with
      | (true, opts', files', w') => (true, opts', (files' ++ ["-"])%list, w')
      | (false, opts', files', w') => (false, opts', files', w')
      end.
Proof.
  induction args as [|arg rest IH]; intros stop opts files w.
  - simpl. now rewrite andb_false_r.
  - cbn [app parse_loop].
    destruct (arg =? "--")%string; [apply IH|].
    destruct (negb stop && (front arg =? "-")%char
              && (1 <? String.length arg)%nat); [|apply IH].
    destruct (arg =? "-")%string; [apply IH|].
    destruct (parse_flags (from_index_1 arg) opts w) as [[ok o1] w1].
    destruct ok; [apply IH|reflexivity].
Qed.

(** X8. A command line that names no file behaves exactly like the same
    command line with "-" added at its end: standard input is the one
    source, in every world and with every option. *)
Theorem no_file_means_standard_input :
  forall (prog : string) (args : list string) (w : World),
    snd (fst (parse_arguments (prog :: args) default_options [] w)) = [] ->
    main (prog :: args) w = main (prog :: args ++ ["-"])%list w.
Proof.
  intros prog args w H. rewrite !main_of_parse_loop. cbn [tl hd].
  rewrite parse_loop_snoc_dash.
  unfold parse_arguments in H. cbn [tl] in H.
  destruct (parse_loop args false default_options [] w) as [[[ok o] f] w1].
  destruct ok; simpl in H; subst f; reflexivity.
Qed.

Lemma no_file_means_standard_input_witness :
  main ["mycat"; "-n"] example_world = main ["mycat"; "-n"; "-"] example_world.
Proof.
  apply (no_file_means_standard_input "mycat" ["-n"] example_world).
  reflexivity.
Defined.

(** ** The access check (lines 122-149) *)

(** X9. On a path other than "-" the access check succeeds exactly when
    [stat] succeeds, the path is no directory and [access] grants reading.
    When it succeeds it writes nothing; when it fails it appends exactly one
    line "mycat: <path>: <message>" to [std::cerr] and touches nothing
    else.  A directory is reported as "Is a directory" whether or not it is
    readable, because the directory test comes before the permission
    test. *)
Theorem access_check_diagnostics :
  forall (filename : string) (w : World),
    (filename =? "-")%string = false ->
    let r := check_file_access filename w in
    (fst r = true <->
     stat_error (fs w filename) = None
     /\ is_directory (fs w filename) = false
     /\ access_error (fs w filename) = None)
    /\ (fst r = true -> snd r = w)
    /\ (fst r = false ->
        exists message : string,
          snd r
          = write_cerr ("mycat: " ++ filename ++ ": " ++ message ++ nl) w)
    /\ (stat_error (fs w filename) = None ->
        is_directory (fs w filename) = true ->
        r = (false,
             write_cerr ("mycat: " ++ filename ++ ": Is a directory" ++ nl) w)).
Proof.
  intros filename w E. cbv zeta. unfold check_file_access. rewrite E.
  destruct (stat_error (fs w filename)) as [e|] eqn:S; simpl.
  - split; [split; [discriminate | intros (H & _); discriminate]|].
    split; [discriminate|]. split; [|discriminate].
    intros _. now exists e.
  - destruct (is_directory (fs w filename)) eqn:D; simpl.
    + split; [split; [discriminate | intros (_ & H & _); discriminate]|].
      split; [discriminate|]. split; [|reflexivity].
      intros _. now exists "Is a directory".
    + destruct (access_error (fs w filename)) as [e|] eqn:A; simpl.
      * split; [split; [discriminate | intros (_ & _ & H); discriminate]|].
        split; [discriminate|]. split; [|discriminate].
        intros _. now exists e.
      * split; [now split|]. split; [reflexivity|]. split; discriminate.
Qed.

Lemma access_check_diagnostics_witness :
  check_file_access "dir"
    (mkWorld (fun _ => mkFileInfo None true (Some "Permission denied") None
                         (mkStream [] false))
       (mkStream [] false) EmptyString EmptyString)
  = (false,
     mkWorld (fun _ => mkFileInfo None true (Some "Permission denied") None
                         (mkStream [] false))
       (mkStream [] false) EmptyString
       ("mycat: dir: Is a directory" ++ nl)).
Proof.
  destruct (access_check_diagnostics "dir"
              (mkWorld (fun _ => mkFileInfo None true
                                   (Some "Permission denied") None
                                   (mkStream [] false))
                 (mkStream [] false) EmptyString EmptyString) eq_refl)
    as (_ & _ & _ & H).
  apply H; reflexivity.
Defined.

(** ** Standard input as a source (lines 210-211, 274) *)

Lemma lines_read_snoc_dash_drained (fsys : string -> FileInfo)
    (files : list string) :
  forall input : Stream,
    pending input = [] ->
    lines_read fsys input (files ++ ["-"])%list = lines_read fsys input files.
Proof.
  induction files as [|f rest IH]; intros input Hp; simpl.
  - unfold source_lines. simpl. now rewrite Hp.
  - f_equal. apply IH. unfold input_after. now destruct (f =? "-")%string.
Qed.

(** X10. Standard input is consumed by its first visit: visiting "-" a
    second time, at once or after other sources, reads no line.  Right
    after a first visit a second one leaves [std::cout], [line_number],
    [last_was_blank] and [had_errors] as the first left them. *)
Theorem standard_input_is_read_once :
  forall (opts : Options) (h : bool) (c : Counters) (w : World),
    let once := process_source opts (h, c, w) "-" in
    let twice := process_source opts once "-" in
    had_errors_of twice = had_errors_of once
    /\ counters_of twice = counters_of once
    /\ cout (world_of twice) = cout (world_of once)
    /\ pending (cin (world_of once)) = []
    /\ (forall files : list string,
          lines_read (fs w) (cin w) ("-" :: files ++ ["-"])%list
          = lines_read (fs w) (cin w) ("-" :: files)%list).
Proof.
  intros opts h c w. cbv zeta.
  destruct (process_source_spec opts h c w "-") as (S1 & _ & _ & S4).
  destruct (process_source opts (h, c, w) "-") as [[h1 c1] w1].
  unfold had_errors_of, world_of in S1, S4. simpl in S1, S4.
  pose proof (process_source_spec opts h1 c1 w1 "-") as T. cbv zeta in T.
  destruct (process_source opts (h1, c1, w1) "-") as [[h2 c2] w2].
  destruct T as (T1 & [T2 T3] & _).
  rewrite S4 in T1, T2, T3.
  unfold had_errors_of, counters_of, world_of, source_fails, source_lines in *.
  simpl in S1, T1, T2, T3. simpl.
  split; [rewrite T1, S1; now destruct h, (bad (cin w))|].
  split; [exact T2|]. split; [exact T3|]. split; [now rewrite S4|].
  intros files. f_equal. now apply lines_read_snoc_dash_drained.
Qed.

Example standard_input_twice :
  main ["mycat"; "-n"; "-"; "c"; "-"] example_world
  = (0, mkWorld example_fs (mkStream [] false)
          ("     1 in" ++ nl ++ "     2 c" ++ nl) EmptyString).
Proof. reflexivity. Qed.

Lemma process_line_with_fs (fsys : string -> FileInfo) (opts : Options)
    (c : Counters) (w : World) (line : string) :
  process_line opts (c, with_fs fsys w) line
  = (fst (process_line opts (c, w) line),
     with_fs fsys (snd (process_line opts (c, w) line))).
Proof.
  rewrite !process_line_eq.
  destruct (squeeze_blanks opts && empty line && last_was_blank c);
    [reflexivity|].
  now destruct (number_lines opts || (number_non_blank opts && negb (empty line))).
Qed.

Lemma lines_with_fs (fsys : string -> FileInfo) (opts : Options)
    (lines : list string) :
  forall (c : Counters) (w : World),
    fold_left (process_line opts) lines (c, with_fs fsys w)
    = (fst (fold_left (process_line opts) lines (c, w)),
       with_fs fsys (snd (fold_left (process_line opts) lines (c, w)))).
Proof.
  induction lines as [|l rest IH]; intros c w; [reflexivity|].
  cbn [fold_left]. rewrite process_line_with_fs.
  destruct (process_line opts (c, w) l) as [c1 w1]. apply IH.
Qed.

(** X11. The source "-" never consults the file system: visiting it gives
    the same error flag, counters, output and diagnostics whatever files
    exist, even one that is itself named "-", and leaves the file system as
    it was. *)
Theorem standard_input_ignores_file_system :
  forall (fsys : string -> FileInfo) (opts : Options) (h : bool)
         (c : Counters) (w : World),
    process_source opts (h, c, with_fs fsys w) "-"
    = (had_errors_of (process_source opts (h, c, w) "-"),
       counters_of (process_source opts (h, c, w) "-"),
       with_fs fsys (world_of (process_source opts (h, c, w) "-"))).
Proof.
  intros fsys opts h c w.
  rewrite !process_source_acquired by (left; reflexivity).
  simpl String.eqb. cbv iota. unfold read_loop.
  change (drain_cin (with_fs fsys w)) with (with_fs fsys (drain_cin w)).
  change (cin (with_fs fsys w)) with (cin w).
  rewrite lines_with_fs.
  destruct (fold_left (process_line opts) (pending (cin w)) (c, drain_cin w))
    as [c1 w1].
  simpl. now destruct (bad (cin w)).
Qed.

(** ** Diagnostics and the exit code *)

Lemma append_eq_nil_r (s t : string) :
  s ++ t = EmptyString -> t = EmptyString.
Proof. destruct s; simpl; [auto | discriminate]. Qed.

Lemma diagnostic_nonempty (filename message : string) :
  diagnostic filename message <> EmptyString.
Proof. discriminate. Qed.

Lemma parse_flags_cerr (flags : string) (opts : Options) (w : World) :
  exists m : string, cerr (snd (parse_flags flags opts w)) = cerr w ++ m.
Proof.
  pose proof (parse_flags_first_invalid flags opts w) as P.
  destruct (first_invalid_flag flags) as [c|].
  - destruct P as [_ P]. rewrite P. destruct (c =? "h")%char.
    + exists EmptyString. now rewrite append_nil_r.
    + simpl. eexists. now rewrite append_assoc.
  - rewrite (parse_flags_accepted flags opts w P). exists EmptyString.
    simpl. now rewrite append_nil_r.
Qed.

Lemma parse_loop_cerr (args : list string) :
  forall (stop : bool) (opts : Options) (files : list string) (w : World),
    (exists m : string,
       cerr (snd (parse_loop args stop opts files w)) = cerr w ++ m)
    /\ (fst (fst (fst (parse_loop args stop opts files w))) = true ->
        snd (parse_loop args stop opts files w) = w).
Proof.
  induction args as [|arg rest IH]; intros stop opts files w; cbn [parse_loop].
  - split; [exists EmptyString; simpl; now rewrite append_nil_r | reflexivity].
  - destruct (arg =? "--")%string; [apply IH|].
    destruct (negb stop && (front arg =? "-")%char
              && (1 <? String.length arg)%nat); [|apply IH].
    destruct (arg =? "-")%string; [apply IH|].
    destruct (parse_flags_cerr (from_index_1 arg) opts w) as [m Hm].
    pose proof (parse_flags_ok_iff (from_index_1 arg) opts w) as V.
    pose proof (parse_flags_accepted (from_index_1 arg) opts w) as A.
    destruct (parse_flags (from_index_1 arg) opts w) as [[ok o1] w1].
    simpl in Hm, V. destruct ok.
    + specialize (A (eq_sym V)). injection A as _ A. subst w1.
      apply IH.
    + simpl. split; [now exists m | discriminate].
Qed.

Lemma process_source_cerr (opts : Options) (h : bool) (c : Counters)
    (w : World) (filename : string) :
  exists s : string,
    cerr (world_of (process_source opts (h, c, w) filename)) = cerr w ++ s
    /\ (source_fails (fs w) (cin w) filename = false -> s = EmptyString)
    /\ (source_fails (fs w) (cin w) filename = true -> s <> EmptyString).
Proof.
  unfold source_fails.
  destruct (filename =? "-")%string eqn:E.
  - rewrite process_source_acquired by (left; exact E). rewrite E.
    pose proof (read_loop_spec filename opts (cin w) c (drain_cin w)) as H.
    cbv zeta in H. destruct H as (_ & _ & _ & _ & _ & H6).
    destruct (read_loop filename opts (cin w) c (drain_cin w)) as [[ok c1] w1].
    unfold world_of in *. simpl in *. eexists. split; [exact H6|].
    destruct (bad (cin w)); split; intros; try discriminate; reflexivity.
  - destruct (passes_access_check (fs w filename)) eqn:P; cbn [negb orb].
    + destruct (open_error (fs w filename)) as [e|] eqn:O;
        unfold opens; rewrite O; cbn [negb orb].
      * unfold process_source.
        destruct (check_file_access_spec filename w E) as (A1 & _ & _ & _ & A5).
        destruct (check_file_access filename w) as [accessible w0].
        simpl in A1, A5. rewrite E. simpl negb. cbv iota.
        rewrite P in A1. subst accessible. rewrite (A5 P). simpl.
        unfold process_file. rewrite E, O. simpl.
        exists (diagnostic filename e). split; [reflexivity|].
        split; [discriminate | intros _; apply diagnostic_nonempty].
      * rewrite process_source_acquired by (right; now split). rewrite E.
        pose proof (read_loop_spec filename opts (contents (fs w filename)) c w)
          as H.
        cbv zeta in H. destruct H as (_ & _ & _ & _ & _ & H6).
        destruct (read_loop filename opts (contents (fs w filename)) c w)
          as [[ok c1] w1].
        unfold world_of in *. simpl in *. eexists. split; [exact H6|].
        destruct (bad (contents (fs w filename))); split; intros;
          try discriminate; reflexivity.
    + unfold process_source. rewrite E. simpl negb. cbv iota.
      unfold check_file_access. rewrite E. unfold passes_access_check in P.
      destruct (stat_error (fs w filename)) as [e|]; simpl.
      * exists (diagnostic filename e). split; [reflexivity|].
        split; [discriminate | intros _; apply diagnostic_nonempty].
      * destruct (is_directory (fs w filename)); simpl.
        -- exists (diagnostic filename "Is a directory").
           split; [reflexivity|].
           split; [discriminate | intros _; apply diagnostic_nonempty].
        -- destruct (access_error (fs w filename)) as [e|]; simpl in *;
             [|discriminate].
           exists (diagnostic filename e). split; [reflexivity|].
           split; [discriminate | intros _; apply diagnostic_nonempty].
Qed.

Lemma append_nonempty (s t : string) :
  s <> EmptyString \/ t <> EmptyString -> s ++ t <> EmptyString.
Proof.
  intros [H|H] E.
  - destruct s; [now apply H | discriminate].
  - now apply append_eq_nil_r in E.
Qed.

Lemma process_files_cerr (opts : Options) (files : list string) :
  forall (h : bool) (c : Counters) (w : World),
    exists s : string,
      cerr (world_of (process_files opts files (h, c, w))) = cerr w ++ s
      /\ (existsb (source_fails (fs w) (cin w)) files = false ->
          s = EmptyString)
      /\ (existsb (source_fails (fs w) (cin w)) files = true ->
          s <> EmptyString).
Proof.
  induction files as [|f rest IH]; intros h c w.
  - exists EmptyString. unfold world_of. simpl. rewrite append_nil_r.
    split; [reflexivity|]. split; [reflexivity | discriminate].
  - unfold process_files. cbn [fold_left existsb].
    destruct (process_source_cerr opts h c w f) as (s1 & C1 & C2 & C3).
    destruct (process_source_spec opts h c w f) as (_ & _ & S3 & S4).
    destruct (process_source opts (h, c, w) f) as [[h1 c1] w1].
    unfold world_of in C1, S3, S4. simpl in C1, S3, S4.
    destruct (IH h1 c1 w1) as (s2 & D1 & D2 & D3).
    unfold process_files in D1.
    rewrite S3, S4, existsb_source_fails_input_after in D2, D3.
    exists (s1 ++ s2). rewrite D1, C1, append_assoc.
    split; [reflexivity|]. split.
    + intros H. apply orb_false_iff in H as [H1 H2].
      now rewrite (C2 H1), (D2 H2).
    + intros H. apply append_nonempty.
      apply orb_true_iff in H as [H|H]; [left; auto | right; auto].
Qed.

(** X12. The exit code and [std::cerr] agree.  [main] returns 0 or 1; when
    it returns 0 nothing at all was written to [std::cerr], and when it
    returns 1 at least one character was appended to it.  Earlier content
    of [std::cerr] is never altered. *)
Theorem exit_code_matches_diagnostics :
  forall (argv : list string) (w : World),
    (fst (main argv w) = 0 /\ cerr (snd (main argv w)) = cerr w)
    \/ (fst (main argv w) = 1
        /\ exists s : string,
             s <> EmptyString /\ cerr (snd (main argv w)) = cerr w ++ s).
Proof.
  intros argv w. rewrite main_of_parse_loop.
  destruct (parse_loop_cerr (tl argv) false default_options [] w)
    as [[m Hm] Hok].
  destruct (parse_loop (tl argv) false default_options [] w)
    as [[[ok o] f] w1].
  simpl in Hm, Hok. destruct ok.
  - rewrite (Hok eq_refl).
    set (sources := match f with [] => ["-"] | _ => f end).
    destruct (process_files_cerr (override_number_lines o) sources false
                initial_counters w) as (s & C1 & C2 & C3).
    destruct (process_files_spec (override_number_lines o) sources false
                initial_counters w) as (H & _).
    destruct (process_files (override_number_lines o) sources
                (false, initial_counters, w)) as [[had c2] w2].
    unfold had_errors_of, world_of in *. simpl in *. subst had.
    destruct (existsb (source_fails (fs w) (cin w)) sources).
    + right. split; [reflexivity|]. exists s. now auto.
    + left. split; [reflexivity|]. rewrite C1, (C2 eq_refl).
      apply append_nil_r.
  - right. split; [reflexivity|]. simpl snd. unfold print_usage.
    eexists. split; [|simpl cerr; rewrite Hm, append_assoc; reflexivity].
    apply append_nonempty. right. discriminate.
Qed.

(** ** The read loop without numbers (lines 222-240) *)

Lemma plain_lines_listing (opts : Options) (lines : list string) :
  number_lines opts = false ->
  number_non_blank opts = false ->
  squeeze_blanks opts = false ->
  forall (c : Counters) (w : World),
    cout (snd (fold_left (process_line opts) lines (c, w)))
    = cout w ++ plain_listing opts lines.
Proof.
  intros Hn Hb Hs. induction lines as [|l rest IH]; intros c w.
  - simpl. now rewrite append_nil_r.
  - cbn [fold_left plain_listing]. rewrite process_line_eq, Hn, Hb, Hs.
    simpl. rewrite IH. simpl. now rewrite !append_assoc.
Qed.

Lemma plain_listing_verbatim (opts : Options) (lines : list string) :
  show_tabs opts = false ->
  show_ends opts = false ->
  plain_listing opts lines = verbatim lines.
Proof.
  intros Ht He. induction lines as [|l rest IH]; [reflexivity|].
  cbn [plain_listing verbatim]. rewrite IH. unfold transform_line.
  now rewrite Ht, He.
Qed.

(** X13. Without -n, -b and -s the run appends to [std::cout] the display
    form of every line it reads, each followed by one newline, in reading
    order across all sources, and nothing else.  If -T and -E are off as
    well, the output is the lines themselves: the program copies its input
    line by line. *)
Theorem unnumbered_run_copies_lines :
  forall (opts : Options) (files : list string) (h : bool) (c : Counters)
         (w : World),
    number_lines opts = false ->
    number_non_blank opts = false ->
    squeeze_blanks opts = false ->
    cout (world_of (process_files opts files (h, c, w)))
    = cout w ++ plain_listing opts (lines_read (fs w) (cin w) files)
    /\ (show_tabs opts = false ->
        show_ends opts = false ->
        cout (world_of (process_files opts files (h, c, w)))
        = cout w ++ verbatim (lines_read (fs w) (cin w) files)).
Proof.
  intros opts files h c w Hn Hb Hs.
  destruct (process_files_spec opts files h c w) as (_ & [_ Hw] & _).
  simpl in Hw. rewrite Hw, (plain_lines_listing opts _ Hn Hb Hs).
  split; [reflexivity|]. intros Ht He.
  now rewrite (plain_listing_verbatim opts _ Ht He).
Qed.

Lemma unnumbered_run_copies_lines_witness :
  cout (world_of (process_files default_options ["gaps"; "nope"; "-"; "c"]
                    (false, initial_counters, example_world)))
  = "a" ++ nl ++ nl ++ nl ++ "b" ++ nl ++ nl ++ "in" ++ nl ++ "c" ++ nl.
Proof.
  destruct (unnumbered_run_copies_lines default_options
              ["gaps"; "nope"; "-"; "c"] false initial_counters example_world
              eq_refl eq_refl eq_refl) as [_ H].
  apply H; reflexivity.
Defined.

(** ** Numbering of non-blank lines (-b) *)

Lemma non_blank_count_loop (opts : Options) (lines : list string) :
  number_lines opts = false ->
  number_non_blank opts = true ->
  forall (c : Counters) (w : World),
    INT_MIN <= line_number c ->
    line_number c + Z.of_nat (List.length (filter non_blank lines)) <= INT_MAX ->
    line_number (fst (fold_left (process_line opts) lines (c, w)))
    = line_number c + Z.of_nat (List.length (filter non_blank lines)).
Proof.
  intros Hn Hb. induction lines as [|l rest IH]; intros c w Hlo Hhi.
  - simpl. lia.
  - cbn [fold_left filter] in *. rewrite process_line_eq, Hn, Hb.
    unfold non_blank in *. destruct (empty l) eqn:El; cbn [negb andb orb] in *.
    + destruct (squeeze_blanks opts && true && last_was_blank c);
        rewrite IH; simpl; trivial.
    + rewrite andb_false_r. cbn [andb]. cbv iota.
      cbn [List.length] in *. rewrite Nat2Z.inj_succ in *.
      rewrite IH; simpl line_number;
        rewrite ?int_succ_in_range by lia; lia.
Qed.

(** X14. With -b ([number_non_blank] set, [number_lines] clear) the
    counter advances by exactly the number of non-empty lines read,
    whether or not blank lines are squeezed: squeezing only drops empty
    lines, which take no number.  Stated within the range of [int]. *)
Theorem non_blank_numbering_counts_non_blank_lines :
  forall (opts : Options) (files : list string) (h : bool) (c : Counters)
         (w : World),
    number_lines opts = false ->
    number_non_blank opts = true ->
    INT_MIN <= line_number c ->
    line_number c
    + Z.of_nat (List.length
                  (filter non_blank (lines_read (fs w) (cin w) files)))
    <= INT_MAX ->
    line_number (counters_of (process_files opts files (h, c, w)))
    = line_number c
      + Z.of_nat (List.length
                    (filter non_blank (lines_read (fs w) (cin w) files))).
Proof.
  intros opts files h c w Hn Hb Hlo Hhi.
  destruct (process_files_spec opts files h c w) as (_ & [Hc _] & _).
  simpl in Hc. rewrite Hc. now apply non_blank_count_loop.
Qed.

Lemma non_blank_numbering_counts_non_blank_lines_witness :
  line_number
    (counters_of (process_files (mkOptions false true false false true)
                    ["gaps"; "blank"] (false, initial_counters, example_world)))
  = 4.
Proof.
  apply (non_blank_numbering_counts_non_blank_lines
           (mkOptions false true false false true) ["gaps"; "blank"] false
           initial_counters example_world);
    try reflexivity; vm_compute; congruence.
Defined.

(** ** The blank flag *)

Lemma last_was_blank_after_line (opts : Options) (s : Counters * World)
    (line : string) :
  last_was_blank (fst (process_line opts s line)) = empty line.
Proof.
  destruct s as [c w]. rewrite process_line_eq.
  destruct (squeeze_blanks opts) eqn:S, (empty line) eqn:E,
    (last_was_blank c) eqn:B; simpl; try assumption;
    now destruct (number_lines opts || (number_non_blank opts && _)).
Qed.

(** X15. After the read loop has run over at least one line,
    [last_was_blank] tells whether the last line read was empty, with every
    combination of options and also when that line was squeezed away.  Over
    no line at all the flag keeps its value. *)
Theorem blank_flag_tracks_last_line :
  forall (opts : Options) (lines : list string) (line : string)
         (c : Counters) (w : World),
    last_was_blank
      (fst (fold_left (process_line opts) (lines ++ [line])%list (c, w)))
    = empty line
    /\ last_was_blank (fst (fold_left (process_line opts) [] (c, w)))
       = last_was_blank c.
Proof.
  intros opts lines line c w. split; [|reflexivity].
  rewrite fold_left_app. cbn [fold_left]. apply last_was_blank_after_line.
Qed.

(** ** More on squeezing *)

Lemma emitted_lines_unchanged (opts : Options) (lines : list string) :
  no_adjacent_blanks lines ->
  forall last_blank : bool,
    (last_blank = true ->
     match lines with [] => True | l :: _ => empty l = false end) ->
    emitted_lines opts last_blank lines = lines.
Proof.
  induction lines as [|l rest IH]; intros Hadj last_blank Hfirst;
    [reflexivity|].
  cbn [emitted_lines].
  assert (D : squeeze_blanks opts && empty l && last_blank = false).
  { destruct last_blank; [|now rewrite andb_false_r].
    rewrite (Hfirst eq_refl). now rewrite andb_false_r. }
  rewrite D. f_equal. apply IH.
  - destruct rest as [|l2 rest2]; [exact I|]. now destruct Hadj.
  - intros El. destruct rest as [|l2 rest2]; [exact I|].
    destruct Hadj as [Hn _]. destruct (empty l2) eqn:E2; [|reflexivity].
    exfalso. apply Hn. now split.
Qed.

(** X16. On input in which no two neighbouring lines are both empty, and
    which does not start with an empty line right after an empty one, -s
    changes nothing: the read loop ends in the same counters and the same
    world as without -s. *)
Theorem squeeze_leaves_single_blanks_alone :
  forall (opts : Options) (lines : list string) (c : Counters) (w : World),
    no_adjacent_blanks lines ->
    last_was_blank c = false ->
    fold_left (process_line opts) lines (c, w)
    = fold_left (process_line (set_squeeze_blanks false opts)) lines (c, w).
Proof.
  intros opts lines c w Hadj Hb.
  rewrite squeezed_lines_as_unsqueezed.
  rewrite emitted_lines_unchanged; trivial.
  rewrite Hb. discriminate.
Qed.

Lemma squeeze_leaves_single_blanks_alone_witness :
  fold_left (process_line (mkOptions true false true false true))
    ["a"; EmptyString; "b"; EmptyString] (initial_counters, example_world)
  = fold_left (process_line (mkOptions true false true false false))
      ["a"; EmptyString; "b"; EmptyString] (initial_counters, example_world).
Proof.
  apply (squeeze_leaves_single_blanks_alone
           (mkOptions true false true false true)
           ["a"; EmptyString; "b"; EmptyString] initial_counters
           example_world).
  - simpl. repeat split; try exact I; intros [H1 H2]; discriminate.
  - reflexivity.
Defined.

Lemma emitted_lines_keep_non_blank (opts : Options) (lines : list string) :
  forall last_blank : bool,
    filter non_blank (emitted_lines opts last_blank lines)
    = filter non_blank lines
    /\ (List.length (emitted_lines opts last_blank lines)
        <= List.length lines)%nat.
Proof.
  induction lines as [|l rest IH]; intros last_blank; [now split|].
  cbn [emitted_lines].
  destruct (squeeze_blanks opts && empty l && last_blank) eqn:D.
  - apply andb_true_iff in D as [D _]. apply andb_true_iff in D as [_ El].
    destruct (IH last_blank) as [I1 I2].
    cbn [filter List.length]. unfold non_blank at 2. rewrite El. simpl.
    split; [exact I1 | lia].
  - destruct (IH (empty l)) as [I1 I2]. cbn [filter List.length].
    rewrite I1. split; [reflexivity | lia].
Qed.

(** X17. Squeezing never loses text: the read loop with any options does
    what the loop without -s does on a selection of the lines that still
    holds every non-empty line, in the original order, and is never longer
    than the input. *)
Theorem squeeze_keeps_every_non_blank_line :
  forall (opts : Options) (lines : list string) (c : Counters) (w : World),
    fold_left (process_line opts) lines (c, w)
    = fold_left (process_line (set_squeeze_blanks false opts))
        (emitted_lines opts (last_was_blank c) lines) (c, w)
    /\ filter non_blank (emitted_lines opts (last_was_blank c) lines)
       = filter non_blank lines
    /\ (List.length (emitted_lines opts (last_was_blank c) lines)
        <= List.length lines)%nat.
Proof.
  intros opts lines c w. split; [apply squeezed_lines_as_unsqueezed|].
  apply emitted_lines_keep_non_blank.
Qed.

(** ** More on the line transformer (lines 165-185) *)

Lemma append_inv_tail_char (s t : string) (a : ascii) :
  s ++ str a = t ++ str a -> s = t.
Proof.
  revert t. induction s as [|c s IH]; intros [|d t] H; simpl in H.
  - reflexivity.
  - injection H as _ H. destruct t; discriminate.
  - injection H as _ H. destruct s; discriminate.
  - injection H as -> H. f_equal. now apply IH.
Qed.

Lemma visible_tabs_injective (l1 : string) :
  forall l2 : string,
    occurs "^" l1 = false ->
    occurs "^" l2 = false ->
    visible_tabs l1 = visible_tabs l2 ->
    l1 = l2.
Proof.
  induction l1 as [|c1 r1 IH]; intros [|c2 r2] H1 H2 E; cbn in *.
  - reflexivity.
  - destruct (c2 =? TAB)%char; discriminate.
  - destruct (c1 =? TAB)%char; discriminate.
  - apply orb_false_iff in H1 as [A1 B1].
    apply orb_false_iff in H2 as [A2 B2].
    destruct (Ascii.eqb_spec c1 TAB) as [->|N1],
             (Ascii.eqb_spec c2 TAB) as [->|N2]; cbn in E.
    + injection E as E. f_equal. now apply IH.
    + injection E as <- _. discriminate.
    + injection E as -> _. discriminate.
    + injection E as -> E. f_equal. now apply IH.
Qed.

Remark tab_and_caret_I_look_alike :
  transform_line (str TAB) (mkOptions false false false true false)
  = transform_line "^I" (mkOptions false false false true false).
Proof. reflexivity. Qed.

(** X18. The display form determines the line when tabs are not made
    visible, and also with -T as long as the lines hold no caret: two such
    lines with the same display form are equal.  (With -T a tab and a
    literal caret followed by I look alike, so the restriction is
    needed.) *)
Theorem transform_line_injective :
  forall (opts : Options) (l1 l2 : string),
    show_tabs opts = false
    \/ (occurs "^" l1 = false /\ occurs "^" l2 = false) ->
    transform_line l1 opts = transform_line l2 opts ->
    l1 = l2.
Proof.
  intros opts l1 l2 H E. rewrite !transform_line_eq in E.
  assert (E' : (if show_tabs opts then visible_tabs l1 else l1)
               = (if show_tabs opts then visible_tabs l2 else l2)).
  { destruct (show_ends opts).
    - now apply append_inv_tail_char in E.
    - now rewrite !append_nil_r in E. }
  destruct (show_tabs opts).
  - destruct H as [H|[H1 H2]]; [discriminate|].
    now apply visible_tabs_injective.
  - exact E'.
Qed.

Lemma transform_line_injective_witness :
  "a" ++ str TAB ++ "b" = String "a" (String TAB "b").
Proof.
  apply (transform_line_injective (mkOptions false false true true false)
           ("a" ++ str TAB ++ "b") (String "a" (String TAB "b")));
    [right; split; reflexivity | reflexivity].
Defined.

Lemma count_tabs_zero (line : string) :
  count_tabs line = O <-> occurs TAB line = false.
Proof.
  induction line as [|c rest IH]; simpl; [tauto|].
  destruct (c =? TAB)%char; simpl; [split; discriminate | exact IH].
Qed.

(** X19. -T changes the display form of a line exactly when the line holds
    a tab: for a tab-free line the result with and without [show_tabs] is
    the same, and for a line with tabs the result with [show_tabs] is
    longer by the number of tabs. *)
Theorem show_tabs_matters_iff_tab :
  forall (opts : Options) (line : string),
    (transform_line line (set_show_tabs true opts)
     = transform_line line (set_show_tabs false opts)
     <-> occurs TAB line = false)
    /\ String.length (transform_line line (set_show_tabs true opts))
       = (String.length (transform_line line (set_show_tabs false opts))
          + count_tabs line)%nat.
Proof.
  intros opts line.
  assert (L : String.length (transform_line line (set_show_tabs true opts))
              = (String.length (transform_line line (set_show_tabs false opts))
                 + count_tabs line)%nat).
  { rewrite !transform_line_eq. simpl show_tabs. simpl show_ends. cbv iota.
    rewrite !length_append, visible_tabs_length. lia. }
  split; [|exact L]. split.
  - intros E. rewrite E in L. apply count_tabs_zero. lia.
  - intros H. rewrite !transform_line_eq. simpl show_tabs. simpl show_ends.
    cbv iota. now rewrite visible_tabs_id.
Qed.

Lemma show_tabs_matters_iff_tab_witness :
  transform_line "no tab" (set_show_tabs true default_options)
  = transform_line "no tab" (set_show_tabs false default_options)
  /\ String.length
       (transform_line ("a" ++ str TAB) (set_show_tabs true default_options))
     = (String.length
          (transform_line ("a" ++ str TAB)
             (set_show_tabs false default_options)) + 1)%nat.
Proof.
  destruct (show_tabs_matters_iff_tab default_options "no tab") as [[_ H] _].
  split; [apply H; reflexivity|].
  destruct (show_tabs_matters_iff_tab default_options ("a" ++ str TAB))
    as [_ L].
  exact L.
Defined.

(** * Where the program departs from unbounded counting and error reporting *)

(** ** The counter past INT_MAX *)




(** ** Failed reads on standard input *)

Lemma process_source_cin_over (opts : Options) (h : bool) (c : Counters)
    (fsys : string -> FileInfo) (d : Descriptor) (out err : string) :
  process_source opts (h, c, mkWorld fsys (cin_over d) out err) "-"
  = (h,
     fst (fold_left (process_line opts) (delivered d)
            (c, mkWorld fsys (mkStream [] false) out err)),
     snd (fold_left (process_line opts) (delivered d)
            (c, mkWorld fsys (mkStream [] false) out err))).
Proof.
  rewrite process_source_acquired by (left; reflexivity).
  change ("-" =? "-")%string with true. cbv iota. unfold read_loop.
  change (drain_cin (mkWorld fsys (cin_over d) out err))
    with (mkWorld fsys (mkStream [] false) out err).
  change (pending (cin (mkWorld fsys (cin_over d) out err)))
    with (delivered d).
  change (bad (cin (mkWorld fsys (cin_over d) out err))) with false.
  now destruct (fold_left (process_line opts) (delivered d)
                  (c, mkWorld fsys (mkStream [] false) out err)).
Qed.

(** C7 (defect). A failed read on standard input is not reported.  When
    the descriptor behind [std::cin] fails, the stream is not bad at line
    244: the visit of "-" writes nothing to [std::cerr], [process_file]
    returns true and [had_errors] keeps its value, whatever was read
    before.  So [mycat -] with standard input redirected from a directory
    exits 0 in silence, while the same descriptor opened by name gives the
    diagnostic "mycat: dev: Read error" and exit code 1. *)
Theorem stdin_read_error_goes_unreported :
  (forall (opts : Options) (h : bool) (c : Counters)
          (fsys : string -> FileInfo) (d : Descriptor) (out err : string),
      let w := mkWorld fsys (cin_over d) out err in
      cerr (world_of (process_source opts (h, c, w) "-")) = err
      /\ had_errors_of (process_source opts (h, c, w) "-") = h
      /\ fst (fst (process_file "-" opts c w)) = true)
  /\ read_fails (mkDescriptor [] true) = true
  /\ main ["mycat"; "-"] unreadable_stdin_world
     = (0, mkWorld example_fs (mkStream [] false) EmptyString EmptyString)
  /\ main ["mycat"; "dev"] unreadable_file_world
     = (1, mkWorld (fs unreadable_file_world) (mkStream [] false) EmptyString
             ("mycat: dev: Read error" ++ nl)).
Proof.
  split; [|repeat split].
  intros opts h c fsys d out err w. subst w.
  rewrite process_source_cin_over.
  destruct (lines_frame opts (delivered d)
              (c, mkWorld fsys (mkStream [] false) out err)) as (_ & _ & F).
  unfold world_of, had_errors_of. simpl. split; [exact F|].
  split; [reflexivity|].
  pose proof (process_file_spec "-" opts c (mkWorld fsys (cin_over d) out err))
    as H.
  cbv zeta in H. destruct H as (H & _). rewrite H. reflexivity.
Qed.

(** C5 (defect). The exit code misses a failed read on standard input.
    A run whose only source is "-" never sets [had_errors], whether or not
    the read behind [std::cin] failed; and [mycat -n - c] with standard
    input redirected from a directory goes on to number the file c from 1,
    writes nothing to [std::cerr] and exits 0, although one of its sources
    hit a read error. *)
Theorem stdin_read_error_exits_zero :
  (forall (opts : Options) (fsys : string -> FileInfo) (d : Descriptor)
          (out err : string),
      had_errors_of
        (process_files opts ["-"]
           (false, initial_counters, mkWorld fsys (cin_over d) out err))
      = false)
  /\ cin unreadable_stdin_world = cin_over (mkDescriptor [] true)
  /\ main ["mycat"; "-n"; "-"; "c"] unreadable_stdin_world
     = (0, mkWorld example_fs (mkStream [] false) ("     1 c" ++ nl)
             EmptyString).
Proof.
  split; [|split; reflexivity].
  intros opts fsys d out err.
  now destruct (process_files_spec opts ["-"] false initial_counters
                  (mkWorld fsys (cin_over d) out err)) as (H & _).
Qed.
